(** * clio: backend interface and Cassandra backend

    A shallow embedding of [src/backend/BackendInterface.cpp] and of the
    inline members of [src/backend/CassandraBackend.h], with the properties
    of the read path, the range update, the statement binder and the
    request throttle that the specification states about them.

    Conventions.
    - [uint32_t] values are [Z] with the wrap-around written out ([wrap32]);
      sizes and loop indices ([size_t]) are [nat]; a [ripple::uint256] key is
      a [Z]; a [Blob] ([std::vector<unsigned char>]) is a list of bytes.
    - A C++ call either returns, throws, fails an [assert], or has undefined
      behaviour (an index past the end of a vector): type [outcome].
    - The DataStax driver ([cassandra.h]) is an external library.  Its answers
      are an explicit script: the list of futures that successive calls of
      [cass_session_execute] complete with.  A retry loop that consumes the
      whole script without leaving is still waiting: [None].  A statement
      made from a prepared query knows the CQL type of each parameter, and
      the driver refuses a value of another type.
    - The driver completes asynchronous writes on its own threads; each
      completion runs a callback that ends in [finishAsyncWrite()].  For a
      single calling thread these completions are a second script: how many
      requests complete during each period in which the caller is blocked on
      a condition variable.  A caller that is blocked when that script is
      used up stays blocked: [None].
    - [NDEBUG] is a parameter of every function that contains an [assert]. *)

From Stdlib Require Import ZArith Lia.
From stdpp Require Import base option list numbers strings.

Local Open Scope Z_scope.

(** ** Values shared by both translation units *)

Module Types.

Definition uint32 := Z.
Definition uint256 := Z.
Definition Blob := list Byte.byte.

Definition wrap32 (z : Z) : uint32 := z mod 2 ^ 32.

(** The 256-bit sentinels that bracket the key space. *)
Definition firstKey : uint256 := 0.
Definition lastKey : uint256 := 2 ^ 256 - 1.

(** [Blob::size() == 0] *)
Definition blob_empty (b : Blob) : bool :=
  match b with
  | [] => true
  | _ :: _ => false
  end.

Record LedgerObject := mkLedgerObject {
  lo_key : uint256;
  lo_blob : Blob
}.

Record LedgerPage := mkLedgerPage {
  page_objects : list LedgerObject;
  page_cursor : option uint256
}.

(** Modelled from the spec: [LedgerRange] is declared in a header that is
    not among the sources; the specification speaks of [range.min] and
    [range.max] and writes a range as [[1,100]]. *)
Record LedgerRange := mkLedgerRange {
  minSequence : uint32;
  maxSequence : uint32
}.

Inductive exn :=
| DatabaseTimeout
| runtime_error (what : string).

Inductive outcome (A : Type) :=
| Ret (a : A)
| Raise (e : exn)
| Abort
| Undefined.

Arguments Ret {A} a.
Arguments Raise {A} e.
Arguments Abort {A}.
Arguments Undefined {A}.

Definition outcome_bind {A B} (f : A -> outcome B) (x : outcome A) : outcome B :=
  match x with
  | Ret a => f a
  | Raise e => Raise e
  | Abort => Abort
  | Undefined => Undefined
  end.

#[export] Instance outcome_mbind : MBind outcome := @outcome_bind.
#[export] Instance outcome_mret : MRet outcome := @Ret.
#[export] Instance outcome_fmap : FMap outcome :=
  fun A B f => outcome_bind (fun a => Ret (f a)).

(** [assert(c)]: nothing under [NDEBUG], otherwise the process aborts when
    [c] is false. *)
Definition assert (NDEBUG : bool) (c : bool) : outcome unit :=
  if NDEBUG then Ret tt else if c then Ret tt else Abort.

Definition is_error {A} (x : outcome A) : bool :=
  match x with
  | Ret _ => false
  | _ => true
  end.

End Types.

Export Types.

(** ** The driver: error codes, values, statements, futures *)

Module Cass.

(** The members of the driver's [CassError] enumeration that the backend
    names or that the driver's accessors below return, and some of the
    others. *)
Inductive CassError :=
| CASS_OK
| CASS_ERROR_LIB_BAD_PARAMS
| CASS_ERROR_LIB_REQUEST_QUEUE_FULL
| CASS_ERROR_LIB_NO_HOSTS_AVAILABLE
| CASS_ERROR_LIB_INDEX_OUT_OF_BOUNDS
| CASS_ERROR_LIB_INVALID_VALUE_TYPE
| CASS_ERROR_LIB_REQUEST_TIMED_OUT
| CASS_ERROR_LIB_NULL_VALUE
| CASS_ERROR_SERVER_SERVER_ERROR
| CASS_ERROR_SERVER_UNAVAILABLE
| CASS_ERROR_SERVER_OVERLOADED
| CASS_ERROR_SERVER_IS_BOOTSTRAPPING
| CASS_ERROR_SERVER_WRITE_TIMEOUT
| CASS_ERROR_SERVER_READ_TIMEOUT
| CASS_ERROR_SERVER_WRITE_FAILURE
| CASS_ERROR_SERVER_INVALID_QUERY
| CASS_ERROR_SERVER_UNPREPARED.

#[export] Instance CassError_eq_dec : EqDecision CassError.
Proof. solve_decision. Defined.

Definition is_ok (rc : CassError) : bool := bool_decide (rc = CASS_OK).

Inductive CassValue :=
| CassBool (b : bool)
| CassInt32 (v : Z)
| CassInt64 (v : Z)
| CassBytes (data : Blob)
| CassTupleInt64 (first second : Z).

(** The CQL types of the columns the backend binds values to. *)
Inductive CassValueType :=
| CASS_VALUE_TYPE_BOOLEAN
| CASS_VALUE_TYPE_INT
| CASS_VALUE_TYPE_BIGINT
| CASS_VALUE_TYPE_BLOB
| CASS_VALUE_TYPE_TUPLE.

(** What the driver takes for a parameter of each type: [cass_bool_t] for
    [boolean], [cass_int32_t] for [int], [cass_int64_t] for [bigint], bytes
    for [blob], a tuple for [tuple]. *)
Definition cass_value_is_valid (t : CassValueType) (v : CassValue) : bool :=
  match t, v with
  | CASS_VALUE_TYPE_BOOLEAN, CassBool _ => true
  | CASS_VALUE_TYPE_INT, CassInt32 _ => true
  | CASS_VALUE_TYPE_BIGINT, CassInt64 _ => true
  | CASS_VALUE_TYPE_BLOB, CassBytes _ => true
  | CASS_VALUE_TYPE_TUPLE, CassTupleInt64 _ _ => true
  | _, _ => false
  end.

(** A bound statement: one slot per [?] of the prepared query, and the
    types of the parameters as the server reported them when the query was
    prepared. *)
Record CassStatement := mkCassStatement {
  stmt_query : string;
  stmt_types : list CassValueType;
  stmt_params : list (option CassValue)
}.

Record CassPrepared := mkCassPrepared {
  prep_query : string;
  prep_param_types : list CassValueType
}.

Definition prep_param_count (p : CassPrepared) : nat := length (prep_param_types p).

Definition cass_prepared_bind (p : CassPrepared) : CassStatement :=
  mkCassStatement (prep_query p) (prep_param_types p)
                  (replicate (prep_param_count p) None).

(** [cass_statement_bind_*(statement, index, value)]: the driver refuses an
    index that is not a parameter of the statement, and a value that is not
    of the type of the parameter.  Every statement of the backend is made
    from a prepared query, which knows the type of each parameter. *)
Definition cass_statement_bind (s : CassStatement) (index : nat) (v : CassValue)
  : CassError * CassStatement :=
  if bool_decide (index < length (stmt_params s))%nat
  then
    match stmt_types s !! index with
    | Some t =>
        if cass_value_is_valid t v
        then (CASS_OK, mkCassStatement (stmt_query s) (stmt_types s)
                         (<[index := Some v]> (stmt_params s)))
        else (CASS_ERROR_LIB_INVALID_VALUE_TYPE, s)
    | None => (CASS_ERROR_LIB_INVALID_VALUE_TYPE, s)
    end
  else (CASS_ERROR_LIB_INDEX_OUT_OF_BOUNDS, s).

Definition CassRow := list CassValue.

(** What a future completes with: its error code, and the rows of its result
    (meaningful when the code is [CASS_OK]). *)
Record CassFuture := mkCassFuture {
  fut_error_code : CassError;
  fut_rows : list CassRow
}.

Definition cass_result_first_row (rows : list CassRow) : option CassRow := head rows.

Definition cass_row_get_column (row : CassRow) (index : nat) : option CassValue :=
  row !! index.

Definition cass_value_get_bool (v : option CassValue) : CassError * bool :=
  match v with
  | Some (CassBool b) => (CASS_OK, b)
  | Some _ => (CASS_ERROR_LIB_INVALID_VALUE_TYPE, false)
  | None => (CASS_ERROR_LIB_NULL_VALUE, false)
  end.

(** The session: the futures still to come, and the statements executed so
    far. *)
Record CassSession := mkCassSession {
  pending : list CassFuture;
  executed : list (option CassStatement)
}.

End Cass.

Export Cass.

(** ** [CassandraBackend.h] *)

(** *** class CassandraStatement *)

Module Statement.

Record CassandraPreparedStatement := mkPrepared {
  prepared_ : option CassPrepared
}.

Record CassandraStatement := mkStatement {
  statement_ : option CassStatement;
  curBindingIndex_ : nat
}.

(** [CassandraStatement(CassandraPreparedStatement const&)]; binding a null
    [CassPrepared] dereferences it. *)
Definition CassandraStatement_new (prepared : CassandraPreparedStatement)
  : outcome CassandraStatement :=
  match prepared_ prepared with
  | Some p => Ret (mkStatement (Some (cass_prepared_bind p)) 0)
  | None => Undefined
  end.

Definition get (st : CassandraStatement) : option CassStatement := statement_ st.

(** The shape shared by the [bindNext*] members: null check, bind at
    [index], throw on a driver error, advance [curBindingIndex_].  The
    message of the second exception also carries the driver's code and
    its description, which are left out. *)
Definition bind_at (who errmsg : string) (index : nat) (v : CassValue)
    (st : CassandraStatement) : outcome CassandraStatement :=
  match statement_ st with
  | None => Raise (runtime_error who)
  | Some s =>
      let '(rc, s') := cass_statement_bind s index v in
      if is_ok rc
      then Ret (mkStatement (Some s') (S (curBindingIndex_ st)))
      else Raise (runtime_error errmsg)
  end.

Definition bindNextBoolean (val : bool) (st : CassandraStatement)
  : outcome CassandraStatement :=
  bind_at "CassandraStatement::bindNextBoolean - statement_ is null"
          "Error binding boolean to statement"
          1%nat (CassBool val) st.

Definition bindNextBytes (data : Blob) (st : CassandraStatement)
  : outcome CassandraStatement :=
  bind_at "CassandraStatement::bindNextBytes - statement_ is null"
          "Error binding bytes to statement"
          (curBindingIndex_ st) (CassBytes data) st.

(** [cass_statement_bind_int32] takes a [cass_int32_t]: the [uint32_t]
    is converted, the upper half becoming negative. *)
Definition int32_of_uint32 (value : uint32) : Z :=
  if bool_decide (value < 2 ^ 31) then value else value - 2 ^ 32.

Definition bindNextUInt (value : uint32) (st : CassandraStatement)
  : outcome CassandraStatement :=
  bind_at "CassandraStatement::bindNextUInt - statement_ is null"
          "Error binding uint to statement"
          (curBindingIndex_ st) (CassInt32 (int32_of_uint32 value)) st.

(** [bindNextInt(uint32_t)] widens to [int64_t] and calls
    [bindNextInt(int64_t)]. *)
Definition bindNextInt (value : Z) (st : CassandraStatement)
  : outcome CassandraStatement :=
  bind_at "CassandraStatement::bindNextInt - statement_ is null"
          "Error binding int to statement"
          (curBindingIndex_ st) (CassInt64 value) st.

(** [bindNextIntTuple] has no null check of its own: the driver is handed
    the null statement. *)
Definition bindNextIntTuple (first second : uint32) (st : CassandraStatement)
  : outcome CassandraStatement :=
  match statement_ st with
  | None => Undefined
  | Some _ =>
      bind_at "" "Error binding tuple to statement"
              (curBindingIndex_ st) (CassTupleInt64 first second) st
  end.

(** The calls a caller can make on a statement, and a sequence of them. *)
Inductive BindCall :=
| CallBoolean (val : bool)
| CallBytes (data : Blob)
| CallUInt (value : uint32)
| CallInt (value : Z)
| CallIntTuple (first second : uint32).

Definition bind_call (c : BindCall) (st : CassandraStatement)
  : outcome CassandraStatement :=
  match c with
  | CallBoolean val => bindNextBoolean val st
  | CallBytes data => bindNextBytes data st
  | CallUInt value => bindNextUInt value st
  | CallInt value => bindNextInt value st
  | CallIntTuple first second => bindNextIntTuple first second st
  end.

Fixpoint bind_calls (cs : list BindCall) (st : CassandraStatement)
  : outcome CassandraStatement :=
  match cs with
  | [] => Ret st
  | c :: cs' => st' ← bind_call c st; bind_calls cs' st'
  end.

(** The parameter slots of a statement ([] for the null statement). *)
Definition params (st : CassandraStatement) : list (option CassValue) :=
  match statement_ st with
  | Some s => stmt_params s
  | None => []
  end.

(** The types of its parameters. *)
Definition param_types (st : CassandraStatement) : list CassValueType :=
  match statement_ st with
  | Some s => stmt_types s
  | None => []
  end.

End Statement.

Export Statement.

(** *** class CassandraBackend *)

Module Backend.

(** The members the modelled functions read or write, and the driver's
    side of the throttle.  [range] is the in-memory range copy inherited
    from [BackendInterface].  [completions] is not a member: it lists how
    many of the requests in flight the driver completes during each
    successive period in which the calling thread is blocked on
    [syncCv_] or [throttleCv_]. *)
Record CassandraBackend := mkBackend {
  range : option LedgerRange;
  ledgerSequence_ : uint32;
  updateLedgerRange_ : CassandraPreparedStatement;
  maxRequestsOutstanding : uint32;
  numRequestsOutstanding_ : uint32;
  session_ : CassSession;
  completions : list nat
}.

Definition set_range (r : option LedgerRange) (b : CassandraBackend) :=
  mkBackend r (ledgerSequence_ b) (updateLedgerRange_ b)
            (maxRequestsOutstanding b) (numRequestsOutstanding_ b) (session_ b)
            (completions b).

Definition set_numRequestsOutstanding (n : uint32) (b : CassandraBackend) :=
  mkBackend (range b) (ledgerSequence_ b) (updateLedgerRange_ b)
            (maxRequestsOutstanding b) n (session_ b) (completions b).

Definition set_session (s : CassSession) (b : CassandraBackend) :=
  mkBackend (range b) (ledgerSequence_ b) (updateLedgerRange_ b)
            (maxRequestsOutstanding b) (numRequestsOutstanding_ b) s (completions b).

Definition set_completions (periods : list nat) (b : CassandraBackend) :=
  mkBackend (range b) (ledgerSequence_ b) (updateLedgerRange_ b)
            (maxRequestsOutstanding b) (numRequestsOutstanding_ b) (session_ b) periods.

(** A member function that may wait: [None] when it never comes back. *)
Definition M (A : Type) := CassandraBackend -> option (outcome A * CassandraBackend).

Definition isTimeout (rc : CassError) : bool :=
  if bool_decide (rc = CASS_ERROR_LIB_NO_HOSTS_AVAILABLE)
     || bool_decide (rc = CASS_ERROR_LIB_REQUEST_TIMED_OUT)
     || bool_decide (rc = CASS_ERROR_SERVER_UNAVAILABLE)
     || bool_decide (rc = CASS_ERROR_SERVER_OVERLOADED)
     || bool_decide (rc = CASS_ERROR_SERVER_READ_TIMEOUT)
  then true
  else false.

Definition canAddRequest (b : CassandraBackend) : bool :=
  bool_decide (numRequestsOutstanding_ b < maxRequestsOutstanding b).

Definition finishedAllRequests (b : CassandraBackend) : bool :=
  bool_decide (numRequestsOutstanding_ b = 0).

(** A request in flight completes on a driver thread: the counter, which
    is not zero, goes down by one ([finishAsyncWrite()] below).  With
    nothing outstanding there is no request to complete. *)
Definition completeRequest (b : CassandraBackend) : CassandraBackend :=
  if bool_decide (numRequestsOutstanding_ b = 0) then b
  else set_numRequestsOutstanding (wrap32 (numRequestsOutstanding_ b - 1)) b.

(** [cv.wait(lck, pred)] from the moment the thread blocks: it is woken
    after the completions of one period (none, for a spurious wake-up),
    evaluates [pred()] under the mutex, and blocks again while it is
    false. *)
Fixpoint cv_wait (pred : CassandraBackend -> bool) (periods : list nat)
    (b : CassandraBackend) : option CassandraBackend :=
  match periods with
  | [] => None
  | n :: periods' =>
      let b' := Nat.iter n completeRequest (set_completions periods' b) in
      if pred b' then Some b' else cv_wait pred periods' b'
  end.

(** [cv.wait(lck, pred)]: [while (!pred()) cv.wait(lck);] *)
Definition wait (pred : CassandraBackend -> bool) : M unit :=
  fun b =>
    if pred b then Some (Ret tt, b)
    else
      match cv_wait pred (completions b) b with
      | Some b' => Some (Ret tt, b')
      | None => None
      end.

(** [sync()]: wait on [syncCv_] until [finishedAllRequests()]. *)
Definition sync : M unit := wait finishedAllRequests.

(** [++numRequestsOutstanding_] on the atomic counter. *)
Definition incrementCounter (b : CassandraBackend) : CassandraBackend :=
  set_numRequestsOutstanding (wrap32 (numRequestsOutstanding_ b + 1)) b.

(** [incremementOutstandingRequestCount()], one caller: wait on
    [throttleCv_] until [canAddRequest()], release the mutex, increment.
    The wait is entered only when [canAddRequest()] is false, which is when
    [wait] blocks. *)
Definition incremementOutstandingRequestCount : M unit :=
  fun b =>
    match wait canAddRequest b with
    | Some (_, b') => Some (Ret tt, incrementCounter b')
    | None => None
    end.

Inductive Notification :=
| notify_throttleCv
| notify_syncCv.

(** [decrementOutstandingRequestCount()], with the condition variables it
    signals, in order. *)
Definition decrementOutstandingRequestCount (NDEBUG : bool) (b : CassandraBackend)
  : outcome (CassandraBackend * list Notification) :=
  if bool_decide (numRequestsOutstanding_ b = 0)
  then
    _ ← assert NDEBUG false;
    Raise (runtime_error "decrementing num outstanding below 0")
  else
    let cur := wrap32 (numRequestsOutstanding_ b - 1) in
    Ret (set_numRequestsOutstanding cur b,
         notify_throttleCv :: (if bool_decide (cur = 0) then [notify_syncCv] else [])).

Definition finishAsyncWrite := decrementOutstandingRequestCount.

(** The [do ... while (rc != CASS_OK)] of [executeSyncWrite] and
    [executeSyncUpdate].  Each turn is one [cass_session_execute]: it takes
    the next scripted future and logs the statement.  Returns the future
    that completed with [CASS_OK], whether an earlier attempt failed
    ([timedOut]), and the session afterwards.  The 5 ms sleep between
    attempts is not modelled. *)
Fixpoint retry_until_ok (stmt : option CassStatement) (timedOut : bool)
    (futs : list CassFuture) (log : list (option CassStatement))
  : option (CassFuture * bool * CassSession) :=
  match futs with
  | [] => None
  | fut :: rest =>
      let log' := log ++ [stmt] in
      if is_ok (fut_error_code fut)
      then Some (fut, timedOut, mkCassSession rest log')
      else retry_until_ok stmt true rest log'
  end.

Definition executeSyncWrite (statement : CassandraStatement) : M unit :=
  fun b =>
    match retry_until_ok (get statement) false
                         (pending (session_ b)) (executed (session_ b)) with
    | None => None
    | Some (_, _, session') => Some (Ret tt, set_session session' b)
    end.

Definition executeSyncUpdate (statement : CassandraStatement) : M bool :=
  fun b =>
    match retry_until_ok (get statement) false
                         (pending (session_ b)) (executed (session_ b)) with
    | None => None
    | Some (fut, timedOut, session') =>
        let b' := set_session session' b in
        match cass_result_first_row (fut_rows fut) with
        | None => Some (Ret false, b')
        | Some row =>
            let '(rc, success) := cass_value_get_bool (cass_row_get_column row 0) in
            if is_ok rc
            then Some (Ret (success || timedOut), b')
            else Some (Ret false, b')
        end
    end.

(** [executeSyncRead]: the rows of the result, a [DatabaseTimeout], or
    "invalid query". *)
Fixpoint executeSyncRead_loop (stmt : option CassStatement)
    (futs : list CassFuture) (log : list (option CassStatement))
  : option (outcome (list CassRow) * CassSession) :=
  match futs with
  | [] => None
  | fut :: rest =>
      let log' := log ++ [stmt] in
      let rc := fut_error_code fut in
      if isTimeout rc
      then Some (Raise DatabaseTimeout, mkCassSession rest log')
      else if bool_decide (rc = CASS_ERROR_SERVER_INVALID_QUERY)
      then Some (Raise (runtime_error "invalid query"), mkCassSession rest log')
      else if is_ok rc
      then Some (Ret (fut_rows fut), mkCassSession rest log')
      else executeSyncRead_loop stmt rest log'
  end.

Definition executeSyncRead (statement : CassandraStatement) : M (list CassRow) :=
  fun b =>
    match executeSyncRead_loop (get statement)
                               (pending (session_ b)) (executed (session_ b)) with
    | None => None
    | Some (r, session') => Some (r, set_session session' b)
    end.

(** Sequencing of member calls: an exception or a wait ends the body. *)
Definition M_bind {A B} (f : A -> M B) (m : M A) : M B :=
  fun b =>
    match m b with
    | None => None
    | Some (Ret a, b') => f a b'
    | Some (Raise e, b') => Some (Raise e, b')
    | Some (Abort, b') => Some (Abort, b')
    | Some (Undefined, b') => Some (Undefined, b')
    end.

#[export] Instance M_mbind : MBind M := @M_bind.
#[export] Instance M_mret : MRet M := fun A a b => Some (Ret a, b).

(** A computation that touches no member. *)
Definition lift {A} (x : outcome A) : M A := fun b => Some (x, b).

(** The three binds of a [ledger_range] statement. *)
Definition rangeStatement (prepared : CassandraPreparedStatement)
    (sequence : Z) (is_latest : bool) (expected : Z) : outcome CassandraStatement :=
  statement ← CassandraStatement_new prepared;
  statement ← bindNextInt sequence statement;
  statement ← bindNextBoolean is_latest statement;
  bindNextInt expected statement.

Definition doFinishWrites : M bool :=
  fun b =>
    (_ ← sync;
     _ ← (if range b is None
          then
            statement ← lift (rangeStatement (updateLedgerRange_ b)
                                (ledgerSequence_ b) false (ledgerSequence_ b));
            executeSyncWrite statement
          else mret tt);
     statement ← lift (rangeStatement (updateLedgerRange_ b)
                         (ledgerSequence_ b) true (wrap32 (ledgerSequence_ b - 1)));
     ok ← executeSyncUpdate statement;
     if negb ok then mret false else mret true) b.

End Backend.

Export Backend.

(** *** The request throttle under concurrent callers

    [executeAsyncWrite(statement, callback, data, isRetry)] calls
    [incremementOutstandingRequestCount()] when [isRetry] is false and then
    hands the statement to the driver.  The atomic steps of a calling thread
    are: leave the wait on [throttleCv_] (the predicate [canAddRequest()] is
    evaluated while [throttleMutex_] is held); [++numRequestsOutstanding_],
    after the mutex has been released; [executeAsyncHelper].  The driver
    completes a request in flight at any moment and its callback calls
    [finishAsyncWrite()].  A failed request is issued again with [isRetry]
    true, which changes neither the counter nor the number in flight. *)

Module Throttle.

Inductive pc :=
| Idle        (* outside [executeAsyncWrite] *)
| PastWait    (* past the wait, mutex released, counter not yet incremented *)
| Counted.    (* counter incremented, request not yet handed to the driver *)

#[export] Instance pc_eq_dec : EqDecision pc.
Proof. solve_decision. Defined.

Record config := mkConfig {
  backend : CassandraBackend;
  threads : list pc;
  inflight : nat
}.

Inductive action :=
| LeaveWait (t : nat)
| Count (t : nat)
| Execute (t : nat)
| Complete.

Definition at_pc (c : config) (t : nat) (p : pc) : bool :=
  bool_decide (threads c !! t = Some p).

(** One atomic step; [None] when the action is not enabled. *)
Definition step (NDEBUG : bool) (a : action) (c : config) : option config :=
  match a with
  | LeaveWait t =>
      if at_pc c t Idle && canAddRequest (backend c)
      then Some (mkConfig (backend c) (<[t := PastWait]> (threads c)) (inflight c))
      else None
  | Count t =>
      if at_pc c t PastWait
      then Some (mkConfig (incrementCounter (backend c))
                          (<[t := Counted]> (threads c)) (inflight c))
      else None
  | Execute t =>
      if at_pc c t Counted
      then Some (mkConfig (backend c) (<[t := Idle]> (threads c)) (S (inflight c)))
      else None
  | Complete =>
      match inflight c with
      | O => None
      | S n =>
          match finishAsyncWrite NDEBUG (backend c) with
          | Ret (b', _) => Some (mkConfig b' (threads c) n)
          | _ => None
          end
      end
  end.

Fixpoint run (NDEBUG : bool) (acts : list action) (c : config) : option config :=
  match acts with
  | [] => Some c
  | a :: acts' =>
      match step NDEBUG a c with
      | Some c' => run NDEBUG acts' c'
      | None => None
      end
  end.

(** [k] caller threads, nothing outstanding. *)
Definition initial (b : CassandraBackend) (k : nat) : config :=
  mkConfig (set_numRequestsOutstanding 0 b) (replicate k Idle) 0.

Definition count_pc (p : pc) (l : list pc) : nat :=
  length (filter (fun q => q = p) l).

End Throttle.

Export Throttle.

(** ** [BackendInterface.cpp] *)

Module Interface.

(** What the read path calls and this translation unit does not define:
    the cache ([cache_.get], [cache_.getSuccessor]) and the pure virtual
    reads of the backend.  A [DatabaseTimeout] thrown by one of them passes
    through the callers below unchanged (none of them has a handler); the
    fields describe reads that return. *)
Record ReadPath := mkReadPath {
  cache_get : uint256 -> uint32 -> option Blob;
  cache_getSuccessor : uint256 -> uint32 -> option LedgerObject;
  doFetchLedgerObject : uint256 -> uint32 -> option Blob;
  doFetchLedgerObjects : list uint256 -> uint32 -> list Blob;
  doFetchSuccessorKey : uint256 -> uint32 -> option uint256
}.

Section ReadPath.

Context (rp : ReadPath).

Definition fetchLedgerObject (key : uint256) (sequence : uint32) : option Blob :=
  match cache_get rp key sequence with
  | Some obj => Some obj
  | None => doFetchLedgerObject rp key sequence
  end.

(** First loop of [fetchLedgerObjects]: [results] (resized to
    [keys.size()], so an empty blob where nothing was stored) and
    [misses]. *)
Fixpoint lookupCache (keys : list uint256) (sequence : uint32)
  : list Blob * list uint256 :=
  match keys with
  | [] => ([], [])
  | key :: keys' =>
      let '(results, misses) := lookupCache keys' sequence in
      match cache_get rp key sequence with
      | Some obj => (obj :: results, misses)
      | None => ([] :: results, key :: misses)
      end
  end.

(** Second loop: [if (results[i].size() == 0) { results[i] = objs[j]; ++j; }].
    [objs[j]] past the end of [objs] is undefined. *)
Fixpoint fillMisses (results : list Blob) (objs : list Blob) (j : nat)
  : outcome (list Blob) :=
  match results with
  | [] => Ret []
  | r :: results' =>
      if blob_empty r
      then
        match objs !! j with
        | Some obj => rest ← fillMisses results' objs (S j); Ret (obj :: rest)
        | None => Undefined
        end
      else rest ← fillMisses results' objs j; Ret (r :: rest)
  end.

Definition fetchLedgerObjects (keys : list uint256) (sequence : uint32)
  : outcome (list Blob) :=
  let '(results, misses) := lookupCache keys sequence in
  match misses with
  | [] => Ret results
  | _ :: _ =>
      let objs := doFetchLedgerObjects rp misses sequence in
      fillMisses results objs 0
  end.

Definition fetchSuccessorKey (key : uint256) (ledgerSequence : uint32)
  : option uint256 :=
  match cache_getSuccessor rp key ledgerSequence with
  | Some succ => Some (lo_key succ)
  | None => doFetchSuccessorKey rp key ledgerSequence
  end.

(** The [while (keys.size() < limit)] of [fetchLedgerPage]; every turn
    appends one key, so [limit] turns are enough. *)
Fixpoint collectKeys (turns : nat) (cursor : option uint256)
    (ledgerSequence : uint32) (limit : nat) (keys : list uint256)
  : list uint256 :=
  match turns with
  | O => keys
  | S turns' =>
      if bool_decide (length keys < limit)%nat
      then
        let curCursor :=
          match last keys with
          | Some back => back
          | None => match cursor with Some c => c | None => firstKey end
          end in
        match fetchSuccessorKey curCursor ledgerSequence with
        | None => keys
        | Some succ => collectKeys turns' cursor ledgerSequence limit (keys ++ [succ])
        end
      else keys
  end.

(** The loop over [objects]: [assert(objects[i].size())], then
    [page.objects.push_back({keys[i], objects[i]})]. *)
Fixpoint pushObjects (NDEBUG : bool) (keys : list uint256) (objects : list Blob)
    (i : nat) (acc : list LedgerObject) : outcome (list LedgerObject) :=
  match objects with
  | [] => Ret acc
  | object :: objects' =>
      _ ← assert NDEBUG (negb (blob_empty object));
      match keys !! i with
      | Some key => pushObjects NDEBUG keys objects' (S i)
                      (acc ++ [mkLedgerObject key object])
      | None => Undefined
      end
  end.

(** [limit] is only ever compared with a size.  [page.objects.back()] of an
    empty vector is undefined. *)
Definition fetchLedgerPage (NDEBUG : bool) (cursor : option uint256)
    (ledgerSequence : uint32) (limit : nat) : outcome LedgerPage :=
  let keys := collectKeys limit cursor ledgerSequence limit [] in
  objects ← fetchLedgerObjects keys ledgerSequence;
  page_objects ← pushObjects NDEBUG keys objects 0 [];
  if bool_decide (limit <= length page_objects)%nat
  then
    match last page_objects with
    | Some back => Ret (mkLedgerPage page_objects (Some (lo_key back)))
    | None => Undefined
    end
  else Ret (mkLedgerPage page_objects None).

End ReadPath.

(** [hardFetchLedgerRange] is pure virtual.  Its behaviour is a script:
    what the first call does, what the second does, and so on.  The wrapper
    returns what it returns or throws, with the number of calls it made;
    [None] when every scripted call timed out and it is still looping. *)
Fixpoint hardFetchLedgerRangeNoThrow_from (calls : nat)
    (script : list (outcome (option LedgerRange)))
  : option (outcome (option LedgerRange) * nat) :=
  match script with
  | [] => None
  | Raise DatabaseTimeout :: script' =>
      hardFetchLedgerRangeNoThrow_from (S calls) script'
  | result :: _ => Some (result, S calls)
  end.

Definition hardFetchLedgerRangeNoThrow := hardFetchLedgerRangeNoThrow_from 0.

(** Modelled from the spec: [updateRange] is defined in
    [BackendInterface.h], which is not among the sources.  The
    specification says that a successful [finishWrites(S)] "updates the
    in-memory range copy", leaving [range.max = S], and that on an empty
    range it "establishes it as [[S, S]]". *)
Definition updateRange (newMax : uint32) : M unit :=
  fun b =>
    match range b with
    | None => Some (Ret tt, set_range (Some (mkLedgerRange newMax newMax)) b)
    | Some r => Some (Ret tt, set_range (Some (mkLedgerRange (minSequence r) newMax)) b)
    end.

Definition finishWrites (ledgerSequence : uint32) : M bool :=
  commitRes ← doFinishWrites;
  _ ← (if (commitRes : bool) then updateRange ledgerSequence else mret tt);
  mret commitRes.

End Interface.

Export Interface.

(** ** Bytes of a key *)

Module KeyBytes.

Definition byte_of_Z (z : Z) : Byte.byte :=
  default Byte.x00 (Stdlib.Strings.Byte.of_N (Z.to_N (z mod 256))).

Definition Z_of_byte (b : Byte.byte) : Z := Z.of_N (Stdlib.Strings.Byte.to_N b).

(** The [n] low bytes of [z], most significant first. *)
Fixpoint be_encode (n : nat) (z : Z) : Blob :=
  match n with
  | O => []
  | S n' => byte_of_Z (z / 256 ^ Z.of_nat n') :: be_encode n' z
  end.

Definition be_decode (bytes : Blob) : Z :=
  fold_left (fun acc b => acc * 256 + Z_of_byte b) bytes 0.

(** [ripple::uint256::data()], [size()] being 32. *)
Definition uint256_data (key : uint256) : Blob := be_encode 32 key.

(** [ripple::uint256::fromVoid(buf)] copies 32 bytes from [buf]; a shorter
    buffer is read past its end. *)
Definition fromVoid (buf : Blob) : outcome uint256 :=
  if bool_decide (length buf < 32)%nat then Undefined else Ret (be_decode (take 32 buf)).

End KeyBytes.

Export KeyBytes.

(** ** [CassandraBackend.h], continued *)

(** *** class CassandraResult *)

Module Result.

(** The bytes the driver holds for a value: the CQL encoding. *)
Definition cql_bytes (v : CassValue) : Blob :=
  match v with
  | CassBool b => [if b then Byte.x01 else Byte.x00]
  | CassInt32 v => be_encode 4 v
  | CassInt64 v => be_encode 8 v
  | CassBytes data => data
  | CassTupleInt64 first second =>
      be_encode 4 8 ++ be_encode 8 first ++ be_encode 4 8 ++ be_encode 8 second
  end.

(** [cass_value_get_bytes] hands out the bytes of any value that is there. *)
Definition cass_value_get_bytes (v : option CassValue) : CassError * Blob :=
  match v with
  | Some v => (CASS_OK, cql_bytes v)
  | None => (CASS_ERROR_LIB_NULL_VALUE, [])
  end.

Definition cass_value_get_int64 (v : option CassValue) : CassError * Z :=
  match v with
  | Some (CassInt64 v) => (CASS_OK, v)
  | Some _ => (CASS_ERROR_LIB_INVALID_VALUE_TYPE, 0)
  | None => (CASS_ERROR_LIB_NULL_VALUE, 0)
  end.

(** [result_] is the result (null or its rows), [iter_] the rows the
    iterator has not reached, [row_] the current row. *)
Record CassandraResult := mkResult {
  result_ : option (list CassRow);
  row_ : option CassRow;
  iter_ : list CassRow;
  curGetIndex_ : nat
}.

(** [CassandraResult(CassResult const* result)] *)
Definition CassandraResult_new (result : option (list CassRow))
  : outcome CassandraResult :=
  match result with
  | None => Raise (runtime_error "CassandraResult - result is null")
  | Some rows => Ret (mkResult (Some rows) (head rows) (tail rows) 0)
  end.

Definition isOk (r : CassandraResult) : bool := bool_decide (is_Some (result_ r)).

Definition hasResult (r : CassandraResult) : bool := bool_decide (is_Some (row_ r)).

(** [numRows] of a null result dereferences it. *)
Definition numRows (r : CassandraResult) : outcome nat :=
  match result_ r with
  | Some rows => Ret (length rows)
  | None => Undefined
  end.

Definition nextRow (r : CassandraResult) : bool * CassandraResult :=
  match iter_ r with
  | row :: rest => (true, mkResult (result_ r) (Some row) rest 0)
  | [] => (false, mkResult (result_ r) None [] 0)
  end.

(** The shape shared by the getters: no row throws, a driver error throws,
    otherwise [curGetIndex_] advances.  As for the binders, the message of
    the second exception is cut short. *)
Definition get_with {A} (norow errmsg : string)
    (accessor : option CassValue -> CassError * A) (r : CassandraResult)
  : outcome (A * CassandraResult) :=
  match row_ r with
  | None => Raise (runtime_error norow)
  | Some row =>
      let '(rc, a) := accessor (cass_row_get_column row (curGetIndex_ r)) in
      if is_ok rc
      then Ret (a, mkResult (result_ r) (row_ r) (iter_ r) (S (curGetIndex_ r)))
      else Raise (runtime_error errmsg)
  end.

Definition getBytes : CassandraResult -> outcome (Blob * CassandraResult) :=
  get_with "CassandraResult::getBytes - no result"
           "CassandraResult::getBytes - error getting value"
           cass_value_get_bytes.

Definition getInt64 : CassandraResult -> outcome (Z * CassandraResult) :=
  get_with "CassandraResult::getInt64 - no result"
           "CassandraResult::getInt64 - error getting value"
           cass_value_get_int64.

(** [(uint32_t)getInt64()] *)
Definition getUInt32 (r : CassandraResult) : outcome (uint32 * CassandraResult) :=
  '(v, r') ← getInt64 r; Ret (wrap32 v, r').

Definition getUInt256 (r : CassandraResult) : outcome (uint256 * CassandraResult) :=
  '(buf, r') ← get_with "CassandraResult::uint256 - no result"
                        "CassandraResult::getuint256 - error getting value"
                        cass_value_get_bytes r;
  key ← fromVoid buf;
  Ret (key, r').

End Result.

Export Result.

(** *** The synchronous readers of CassandraBackend *)

Module Readers.

Definition INT64_MAX : Z := 2 ^ 63 - 1.

(** [bindNextBytes(ripple::uint256 const&)] *)
Definition bindNextBytes_uint256 (data : uint256) : CassandraStatement -> outcome CassandraStatement :=
  bindNextBytes (uint256_data data).

(** [bindNextBytes(void const* key, uint32_t size)]: [size] bytes from
    [key]; fewer are read past their end. *)
Definition bindNextBytes_void (key : Blob) (size : nat) (st : CassandraStatement)
  : outcome CassandraStatement :=
  if bool_decide (length key < size)%nat then Undefined
  else bindNextBytes (take size key) st.

(** [CassandraResult result = executeSyncRead(statement)] *)
Definition readResult (statement : CassandraStatement) : M CassandraResult :=
  rows ← executeSyncRead statement;
  lift (CassandraResult_new (Some rows)).

Definition fetchLatestLedgerSequence (selectLatestLedger_ : CassandraPreparedStatement)
  : M (option uint32) :=
  statement ← lift (CassandraStatement_new selectLatestLedger_);
  result ← readResult statement;
  if negb (hasResult result)
  then mret None
  else
    got ← lift (getUInt32 result);
    mret (Some got.1).

Definition getToken (getToken_ : CassandraPreparedStatement) (key : Blob)
  : M (option Z) :=
  statement ← lift (CassandraStatement_new getToken_);
  statement ← lift (bindNextBytes_void key 32 statement);
  result ← readResult statement;
  if negb (hasResult result)
  then mret None
  else
    got ← lift (getInt64 result);
    if bool_decide (got.1 = INT64_MAX) then mret None else mret (Some (got.1 + 1)).

(** Modelled from the spec: [TransactionAndMetadata] is declared in a header
    that is not among the sources; the specification lists a transaction as
    "(blob, metadataBlob, ledgerSeq, date)". *)
Record TransactionAndMetadata := mkTransactionAndMetadata {
  transaction : Blob;
  metadata : Blob;
  tx_ledgerSequence : uint32;
  tx_date : uint32
}.

Definition fetchTransaction (selectTransaction_ : CassandraPreparedStatement)
    (hash : uint256) : M (option TransactionAndMetadata) :=
  statement ← lift (CassandraStatement_new selectTransaction_);
  statement ← lift (bindNextBytes_uint256 hash statement);
  result ← readResult statement;
  if negb (hasResult result)
  then mret None
  else
    lift ('(txn, result) ← getBytes result;
          '(meta, result) ← getBytes result;
          '(seq, result) ← getUInt32 result;
          '(date, result) ← getUInt32 result;
          Ret (Some (mkTransactionAndMetadata txn meta seq date))).

End Readers.

Export Readers.

(** ** [BackendInterface.cpp], continued *)

Module InterfaceMore.

Section ReadPath.

Context (rp : ReadPath).

(** [*obj] of an empty optional is undefined. *)
Definition fetchSuccessorObject (NDEBUG : bool) (key : uint256)
    (ledgerSequence : uint32) : outcome (option LedgerObject) :=
  match fetchSuccessorKey rp key ledgerSequence with
  | Some succ =>
      let obj := fetchLedgerObject rp succ ledgerSequence in
      _ ← assert NDEBUG (bool_decide (is_Some obj));
      match obj with
      | Some blob => Ret (Some (mkLedgerObject succ blob))
      | None => Undefined
      end
  | None => Ret None
  end.

End ReadPath.

End InterfaceMore.

Export InterfaceMore.

(** *** [fetchBookOffers] *)

Module BookOffers.

(** What [fetchBookOffers] takes from the ripple libraries: the end of a
    book's quality range, the two fields it reads of a directory node
    ([STLedgerEntry{SerialIter{blob}, key}] then [getFieldV256(sfIndexes)]
    and [getFieldU64(sfIndexNext)]), and the key of a directory page.  The
    fields describe parses that return. *)
Record Ripple := mkRipple {
  getQualityNext : uint256 -> uint256;
  sfIndexes : uint256 -> Blob -> list uint256;
  sfIndexNext : uint256 -> Blob -> Z;
  keylet_page : uint256 -> Z -> uint256
}.

Section BookOffers.

Context (rl : Ripple) (rp : ReadPath) (NDEBUG : bool).

(** The two nested [while (keys.size() < limit)] loops, one turn of either
    per unit of [turns]; [offerDir] is the directory node the inner loop is
    at, none at the head of the outer loop.  [None] when the turns run
    out. *)
Fixpoint collectOffers (turns : nat) (bookEnd : uint256) (ledgerSequence : uint32)
    (limit : nat) (offerDir : option LedgerObject) (uTipIndex : uint256)
    (keys : list uint256) : option (outcome (list uint256)) :=
  match turns with
  | O => None
  | S turns' =>
      match offerDir with
      | None =>
          if bool_decide (length keys < limit)%nat
          then
            match fetchSuccessorObject rp NDEBUG uTipIndex ledgerSequence with
            | Ret None => Some (Ret keys)
            | Ret (Some dir) =>
                if bool_decide (bookEnd < lo_key dir)
                then Some (Ret keys)
                else collectOffers turns' bookEnd ledgerSequence limit
                       (Some dir) uTipIndex keys
            | Raise e => Some (Raise e)
            | Abort => Some Abort
            | Undefined => Some Undefined
            end
          else Some (Ret keys)
      | Some dir =>
          if bool_decide (length keys < limit)%nat
          then
            let uTipIndex := lo_key dir in
            let keys := keys ++ sfIndexes rl (lo_key dir) (lo_blob dir) in
            let next := sfIndexNext rl (lo_key dir) (lo_blob dir) in
            if bool_decide (next = 0)
            then collectOffers turns' bookEnd ledgerSequence limit None uTipIndex keys
            else
              let nextKey := keylet_page rl uTipIndex next in
              let nextDir := fetchLedgerObject rp nextKey ledgerSequence in
              match assert NDEBUG (bool_decide (is_Some nextDir)), nextDir with
              | Ret _, Some blob =>
                  collectOffers turns' bookEnd ledgerSequence limit
                    (Some (mkLedgerObject nextKey blob)) uTipIndex keys
              | Ret _, None => Some Undefined
              | Raise e, _ => Some (Raise e)
              | Abort, _ => Some Abort
              | Undefined, _ => Some Undefined
              end
          else collectOffers turns' bookEnd ledgerSequence limit None uTipIndex keys
      end
  end.

(** [for (i = 0; i < keys.size() && i < limit; ++i)]: the assertion, then
    [page.offers.push_back({keys[i], objs[i]})]. *)
Fixpoint pushOffers (turns : nat) (limit : nat) (keys : list uint256)
    (objs : list Blob) (i : nat) (offers : list LedgerObject)
  : outcome (list LedgerObject) :=
  match turns with
  | O => Ret offers
  | S turns' =>
      if bool_decide (i < length keys)%nat && bool_decide (i < limit)%nat
      then
        match objs !! i, keys !! i with
        | Some obj, Some key =>
            _ ← assert NDEBUG (negb (blob_empty obj));
            pushOffers turns' limit keys objs (S i) (offers ++ [mkLedgerObject key obj])
        | _, _ => Undefined
        end
      else Ret offers
  end.

(** The offers of the page; its cursor is never set, and the [cursor]
    argument is never read. *)
Definition fetchBookOffers (turns : nat) (book : uint256) (ledgerSequence : uint32)
    (limit : nat) (cursor : option uint256) : option (outcome (list LedgerObject)) :=
  let bookEnd := getQualityNext rl book in
  match collectOffers turns bookEnd ledgerSequence limit None book [] with
  | None => None
  | Some collected =>
      Some (keys ← collected;
            objs ← fetchLedgerObjects rp keys ledgerSequence;
            pushOffers limit limit keys objs 0 [])
  end.

End BookOffers.

End BookOffers.

Export BookOffers.

(** * What the specification says, and the fixtures of the examples *)

Module Claims.

(** Spec-side vocabulary for the claims about the retry loops. *)

(** An outcome that ends [executeSyncRead]: timeout class, invalid query,
    or success.  Every other outcome is retried. *)
Definition decisive (rc : CassError) : bool :=
  isTimeout rc || bool_decide (rc = CASS_ERROR_SERVER_INVALID_QUERY) || is_ok rc.

(** The attempts of a retry-until-OK loop that failed, and the one that
    succeeded. *)
Fixpoint failed_attempts (futs : list CassFuture) : list CassFuture :=
  match futs with
  | [] => []
  | fut :: rest => if is_ok (fut_error_code fut) then [] else fut :: failed_attempts rest
  end.

Fixpoint answered (futs : list CassFuture) : option CassFuture :=
  match futs with
  | [] => None
  | fut :: rest => if is_ok (fut_error_code fut) then Some fut else answered rest
  end.

(** "The server reports applied": the first column of the first row of the
    answer is the boolean true. *)
Definition reports_applied (futs : list CassFuture) : bool :=
  match answered futs with
  | Some fut =>
      match cass_result_first_row (fut_rows fut) with
      | Some (CassBool true :: _) => true
      | _ => false
      end
  | None => false
  end.

(** "A timeout-class retry occurred during the call". *)
Definition timeout_retry (futs : list CassFuture) : bool :=
  existsb (fun fut => isTimeout (fut_error_code fut)) (failed_attempts futs).

(** C3 as the specification states it. *)
Definition update_true_iff_applied_or_timeout
    (statement : CassandraStatement) (b : CassandraBackend) : Prop :=
  forall r b', executeSyncUpdate statement b = Some (Ret r, b') ->
    (r = true <->
     reports_applied (pending (session_ b)) = true \/
     timeout_retry (pending (session_ b)) = true).

(** A "none" of the point read is the empty blob of the batch read, whose
    elements are plain blobs. *)
Definition blob_of (o : option Blob) : Blob := default [] o.


(** The cache never answers with an empty blob. *)
Definition cache_hits_nonempty (rp : ReadPath) (sequence : uint32) : Prop :=
  forall key obj, cache_get rp key sequence = Some obj -> obj <> [].

(** The batched read of the store agrees with its point read, key by key
    and in order. *)
Definition batch_agrees (rp : ReadPath) (sequence : uint32) : Prop :=
  forall keys,
    doFetchLedgerObjects rp keys sequence
    = (fun key => blob_of (doFetchLedgerObject rp key sequence)) <$> keys.


(** [keys] are successive successors, from [start]. *)
Definition successor_chain (rp : ReadPath) (ledgerSequence : uint32) (start : uint256)
    (keys : list uint256) : Prop :=
  forall i key, keys !! i = Some key ->
    fetchSuccessorKey rp
      (match i with
       | O => start
       | S i' => default start (keys !! i')
       end) ledgerSequence = Some key.

(** C4 as the specification states it: the keys of the page are the
    successors of the cursor (of [firstKey] without one), as many as
    [limit] allows or as there are; their objects are fetched in one batch;
    the page has a cursor, its last key, exactly when it holds [limit]
    objects or more. *)
Definition ledger_page_claim (rp : ReadPath) (NDEBUG : bool) (cursor : option uint256)
    (ledgerSequence : uint32) (limit : nat) : Prop :=
  exists keys,
    let start := default firstKey cursor in
    successor_chain rp ledgerSequence start keys /\
    (length keys <= limit)%nat /\
    ((length keys < limit)%nat ->
       fetchSuccessorKey rp (default start (last keys)) ledgerSequence = None) /\
    fetchLedgerPage rp NDEBUG cursor ledgerSequence limit
    = (objects ← fetchLedgerObjects rp keys ledgerSequence;
       _ ← assert NDEBUG (forallb (fun object => negb (blob_empty object)) objects);
       Ret (mkLedgerPage (zip_with mkLedgerObject keys objects)
              (if bool_decide (limit <= length objects)%nat
               then last keys else None))).

(** The parameters of the range update as [doFinishWrites] binds them: the
    sequence, the [is_latest] boolean, the expected sequence. *)
Definition range_param_types : list CassValueType :=
  [CASS_VALUE_TYPE_BIGINT; CASS_VALUE_TYPE_BOOLEAN; CASS_VALUE_TYPE_BIGINT].

(** The answers of the script that are OK: each retry loop leaves at the
    first of them. *)
Definition ok_answers (futs : list CassFuture) : nat :=
  length (filter (fun fut => fut_error_code fut = CASS_OK) futs).

(** The counter counts the requests in flight and those about to be handed
    to the driver; the threads past the wait can push it beyond the cap by
    at most their number less one. *)
Definition throttle_inv (k : nat) (cap : Z) (c : config) : Prop :=
  length (threads c) = k /\
  maxRequestsOutstanding (backend c) = cap /\
  numRequestsOutstanding_ (backend c)
  = Z.of_nat (inflight c + count_pc Counted (threads c)) /\
  numRequestsOutstanding_ (backend c) + Z.of_nat (count_pc PastWait (threads c))
  <= cap + Z.of_nat (k - 1).

End Claims.

Export Claims.

Module Fixtures.

Definition ab : Blob := [Byte.x61; Byte.x62].

(** Concrete read paths.  Keys are small numbers; the store holds
    [stored], by key, at every sequence; the cache holds [cached]. *)

Definition table (rows : list (uint256 * Blob)) (key : uint256) : option Blob :=
  (fun hit => hit.2.2) <$> list_find (fun row => row.1 = key) rows.

Definition successor_in (keys : list uint256) (key : uint256) : option uint256 :=
  snd <$> list_find (fun k => key < k) keys.

Definition read_path (cached stored : list (uint256 * Blob)) : ReadPath :=
  mkReadPath
    (fun key _ => table cached key)
    (fun _ _ => None)
    (fun key _ => match table stored key with
                  | Some [] => None
                  | found => found
                  end)
    (fun keys _ => (fun key => default [] (table stored key)) <$> keys)
    (fun key _ => successor_in (fst <$> filter (fun row => row.2 <> []) stored) key).

Definition queue_full_then_not_applied : CassandraBackend :=
  mkBackend (Some (mkLedgerRange 1 5)) 6 (mkPrepared None) 10000 0
    (mkCassSession
       [mkCassFuture CASS_ERROR_LIB_REQUEST_QUEUE_FULL [];
        mkCassFuture CASS_OK [[CassBool false]]] []) [].

(** Ledger 6 on top of the range [[1,5]]: one answer "applied". *)
Definition committing_6 : CassandraBackend :=
  mkBackend (Some (mkLedgerRange 1 5)) 6
    (mkPrepared (Some (mkCassPrepared "UPDATE ledger_range" range_param_types))) 10000 0
    (mkCassSession [mkCassFuture CASS_OK [[CassBool true]]] []) [].

(** The same with three writes still outstanding: the driver completes one
    of them, then the other two. *)
Definition committing_6_after_writes : CassandraBackend :=
  set_completions [1; 2]%nat (set_numRequestsOutstanding 3 committing_6).

Definition cap_2 : CassandraBackend :=
  mkBackend None 0 (mkPrepared None) 2 0 (mkCassSession [] []) [].

End Fixtures.

Export Fixtures.

(** * Vocabulary and fixtures of the further properties *)

Module Further.

(** The value a bind call hands to the driver. *)
Definition call_value (c : BindCall) : CassValue :=
  match c with
  | CallBoolean val => CassBool val
  | CallBytes data => CassBytes data
  | CallUInt value => CassInt32 (int32_of_uint32 value)
  | CallInt value => CassInt64 value
  | CallIntTuple first second => CassTupleInt64 first second
  end.

Definition is_boolean_call (c : BindCall) : bool :=
  match c with
  | CallBoolean _ => true
  | _ => false
  end.

(** A statement of the [ledger_range] update as the driver receives it. *)
Definition ledgerRangeStatement (query : string) (sequence : Z) (is_latest : bool)
    (expected : Z) : option CassStatement :=
  Some (mkCassStatement query range_param_types
          [Some (CassInt64 sequence); Some (CassBool is_latest);
           Some (CassInt64 expected)]).

(** Up to [n] successive successors of [start]. *)
Fixpoint successors (rp : ReadPath) (ledgerSequence : uint32) (n : nat)
    (start : uint256) : list uint256 :=
  match n with
  | O => []
  | S n' =>
      match fetchSuccessorKey rp start ledgerSequence with
      | None => []
      | Some succ => succ :: successors rp ledgerSequence n' succ
      end
  end.

(** A key with the object the point read gives for it. *)
Definition object_at (rp : ReadPath) (ledgerSequence : uint32) (key : uint256)
  : LedgerObject :=
  mkLedgerObject key (blob_of (fetchLedgerObject rp key ledgerSequence)).

(** The keys of [keys] the cache does not hold. *)
Definition missed (rp : ReadPath) (sequence : uint32) (keys : list uint256)
  : list uint256 :=
  filter (fun key => cache_get rp key sequence = None) keys.

(** [n] calls of [nextRow]. *)
Fixpoint advance (n : nat) (r : CassandraResult) : CassandraResult :=
  match n with
  | O => r
  | S n' => advance n' (nextRow r).2
  end.

#[export] Instance action_eq_dec : EqDecision action.
Proof. solve_decision. Defined.

Definition three_parameters : CassandraPreparedStatement :=
  mkPrepared (Some (mkCassPrepared "UPDATE ledger_range" range_param_types)).

Definition one_parameter : CassandraPreparedStatement :=
  mkPrepared (Some (mkCassPrepared "SELECT" [CASS_VALUE_TYPE_BLOB])).

Definition no_parameter : CassandraPreparedStatement :=
  mkPrepared (Some (mkCassPrepared "SELECT" [])).

(** A directory node whose blob lists its offers, one byte a key, on a
    single page; the book at key 10 ends at key 110. *)
Definition one_page_books : Ripple :=
  mkRipple (fun book => book + 100) (fun _ blob => Z_of_byte <$> blob)
           (fun _ _ => 0) (fun key next => key + next).

Definition book_store : ReadPath :=
  read_path [] [(11, [Byte.x15; Byte.x16]); (21, ab); (22, ab)].

Definition idle_backend (futures : list CassFuture) : CassandraBackend :=
  mkBackend None 5 three_parameters 10000 0 (mkCassSession futures []) [].

End Further.

Export Further.

(** * Properties *)

(** ** The statement binder *)

Section Binder.

Lemma bind_at_Ret who errmsg index v st st' :
  bind_at who errmsg index v st = Ret st' ->
  (index < length (params st))%nat /\
  params st' = <[index := Some v]> (params st) /\
  curBindingIndex_ st' = S (curBindingIndex_ st).
Proof.
  unfold bind_at, params, cass_statement_bind.
  destruct (statement_ st) as [s|]; [|discriminate].
  case_bool_decide; simpl; [|discriminate].
  destruct (stmt_types s !! index) as [t|]; [|discriminate].
  destruct (cass_value_is_valid t v); simpl; [|discriminate].
  intros [= <-]. simpl. auto.
Qed.

(** A bind returns exactly when the index is a parameter and the value is
    of its type. *)
Lemma bind_at_returns_iff who errmsg index v st :
  (exists st', bind_at who errmsg index v st = Ret st') <->
  (index < length (params st))%nat /\
  (exists t, param_types st !! index = Some t /\ cass_value_is_valid t v = true).
Proof.
  unfold bind_at, params, param_types, cass_statement_bind.
  destruct (statement_ st) as [s|]; simpl.
  - case_bool_decide as Hlt; simpl.
    + destruct (stmt_types s !! index) as [t|].
      * destruct (cass_value_is_valid t v) eqn:Hvalid; simpl.
        -- split; [|by eauto]. intros _. split; [done|]. by exists t.
        -- split; [by intros [? ?]|]. intros [_ (t' & [= <-] & H)]. congruence.
      * simpl. split; [by intros [? ?]|]. by intros [_ (t' & ? & _)].
    + split; [by intros [? ?]|]. intros [? _]. lia.
  - split; [by intros [? ?]|]. intros [? _]. lia.
Qed.

(** C9.  Whatever was bound before, a successful [bindNextBoolean] writes
    the boolean into parameter slot 1 and nowhere else, and advances
    [curBindingIndex_] by one; it succeeds exactly on a statement with a
    slot 1 that takes a boolean.  The slot the caller is at
    ([curBindingIndex_]) receives the value when it is 1 and is left as it
    was otherwise.  The range statement of [doFinishWrites] binds an
    integer, then the boolean, then an integer, so there the boolean lands
    in its own slot. *)
Theorem bindNextBoolean_binds_slot_1 (val : bool) (st st' : CassandraStatement) :
  bindNextBoolean val st = Ret st' ->
  params st' = <[1%nat := Some (CassBool val)]> (params st) /\
  params st' !! 1%nat = Some (Some (CassBool val)) /\
  (forall i, i <> 1%nat -> params st' !! i = params st !! i) /\
  curBindingIndex_ st' = S (curBindingIndex_ st) /\
  (curBindingIndex_ st = 1%nat ->
     params st' !! curBindingIndex_ st = Some (Some (CassBool val))) /\
  (curBindingIndex_ st <> 1%nat ->
     params st' !! curBindingIndex_ st = params st !! curBindingIndex_ st) /\
  (forall query sequence is_latest expected,
     rangeStatement (mkPrepared (Some (mkCassPrepared query range_param_types)))
       sequence is_latest expected
     = Ret (mkStatement
              (Some (mkCassStatement query range_param_types
                       [Some (CassInt64 sequence); Some (CassBool is_latest);
                        Some (CassInt64 expected)]))
              3)).
Proof.
  intros H. apply bind_at_Ret in H as (Hlt & Hp & Hi).
  assert (Hslot : params st' !! 1%nat = Some (Some (CassBool val))).
  { rewrite Hp. by apply list_lookup_insert_eq. }
  repeat split; auto.
  - intros i Hne. rewrite Hp. by apply list_lookup_insert_ne.
  - intros ->. done.
  - intros Hne. rewrite Hp. by apply list_lookup_insert_ne.
Qed.

Lemma bindNextBoolean_binds_slot_1_witness :
  let st := mkStatement (Some (cass_prepared_bind (mkCassPrepared "q" range_param_types))) 0 in
  exists st', bindNextBoolean true st = Ret st' /\
    params st' = [None; Some (CassBool true); None] /\
    curBindingIndex_ st' = 1%nat.
Proof.
  eexists. split; [reflexivity|].
  pose proof (bindNextBoolean_binds_slot_1 true
    (mkStatement (Some (cass_prepared_bind (mkCassPrepared "q" range_param_types))) 0)
    _ eq_refl)
    as (Hp & _ & _ & Hi & _).
  split; [exact Hp | exact Hi].
Defined.

(** [bindNextBoolean] returns exactly on a non-null statement with at least
    two parameters, the second of which takes a boolean. *)
Lemma bindNextBoolean_returns_iff val st :
  (exists st', bindNextBoolean val st = Ret st') <->
  (1 < length (params st))%nat /\
  param_types st !! 1%nat = Some CASS_VALUE_TYPE_BOOLEAN.
Proof.
  unfold bindNextBoolean. rewrite bind_at_returns_iff.
  split; intros [Hlt Ht]; (split; [done|]).
  - destruct Ht as (t & Ht & Hvalid). by destruct t.
  - by exists CASS_VALUE_TYPE_BOOLEAN.
Qed.

(** The same after any sequence of binds on a fresh statement. *)
Lemma bindNextBoolean_after_calls prepared calls val st st' :
  (fresh ← CassandraStatement_new prepared; bind_calls calls fresh) = Ret st ->
  bindNextBoolean val st = Ret st' ->
  params st' !! 1%nat = Some (Some (CassBool val)) /\
  curBindingIndex_ st' = S (curBindingIndex_ st).
Proof.
  intros _ H. apply bind_at_Ret in H as (Hlt & -> & ->).
  split; [by apply list_lookup_insert_eq|done].
Qed.

(** The other binders write at [curBindingIndex_]. *)
Lemma bindNextInt_binds_current value st st' :
  bindNextInt value st = Ret st' ->
  params st' = <[curBindingIndex_ st := Some (CassInt64 value)]> (params st) /\
  curBindingIndex_ st' = S (curBindingIndex_ st).
Proof. intros H. by apply bind_at_Ret in H as (_ & ? & ?). Qed.

(** A boolean that is the first parameter of its statement ends up in the
    second slot when that one takes a boolean too, and is refused by the
    driver otherwise. *)
Example bindNextBoolean_first_parameter :
  params <$> (st ← CassandraStatement_new
                     (mkPrepared (Some (mkCassPrepared "q"
                        [CASS_VALUE_TYPE_BOOLEAN; CASS_VALUE_TYPE_BOOLEAN])));
              bindNextBoolean true st)
  = Ret [None; Some (CassBool true)] /\
  (st ← CassandraStatement_new
          (mkPrepared (Some (mkCassPrepared "q"
             [CASS_VALUE_TYPE_BOOLEAN; CASS_VALUE_TYPE_BIGINT])));
   bindNextBoolean true st)
  = Raise (runtime_error "Error binding boolean to statement").
Proof. split; reflexivity. Qed.

End Binder.

(** ** The outstanding-request counter *)

Section Counter.

(** C10.  On a counter that is zero [decrementOutstandingRequestCount]
    ends in an error (the failed [assert], or the [runtime_error] under
    [NDEBUG]) and nothing is decremented or signalled.  Otherwise the
    counter goes down by one and stays a non-negative [uint32_t], the
    throttle condition variable is notified, and the sync condition
    variable is notified exactly when the new count is zero. *)
Theorem decrement_never_underflows (NDEBUG : bool) (b : CassandraBackend) :
  0 <= numRequestsOutstanding_ b < 2 ^ 32 ->
  (numRequestsOutstanding_ b = 0 ->
     decrementOutstandingRequestCount NDEBUG b
     = (if NDEBUG
        then Raise (runtime_error "decrementing num outstanding below 0")
        else Abort) /\
     is_error (decrementOutstandingRequestCount NDEBUG b) = true) /\
  (numRequestsOutstanding_ b <> 0 ->
     exists b' notified,
       decrementOutstandingRequestCount NDEBUG b = Ret (b', notified) /\
       numRequestsOutstanding_ b' = numRequestsOutstanding_ b - 1 /\
       0 <= numRequestsOutstanding_ b' /\
       b' = set_numRequestsOutstanding (numRequestsOutstanding_ b - 1) b /\
       notify_throttleCv ∈ notified /\
       (notify_syncCv ∈ notified <-> numRequestsOutstanding_ b' = 0) /\
       notified = notify_throttleCv ::
                  (if bool_decide (numRequestsOutstanding_ b' = 0)
                   then [notify_syncCv] else [])).
Proof.
  intros Hrange. unfold decrementOutstandingRequestCount. split.
  - intros Hz. rewrite bool_decide_eq_true_2 by done.
    destruct NDEBUG; simpl; auto.
  - intros Hnz. rewrite bool_decide_eq_false_2 by done.
    assert (Hw : wrap32 (numRequestsOutstanding_ b - 1) = numRequestsOutstanding_ b - 1).
    { unfold wrap32. apply Z.mod_small. lia. }
    rewrite Hw. eexists _, _. split; [reflexivity|]. simpl.
    repeat split; try lia.
    + apply list_elem_of_here.
    + case_bool_decide; [done|].
      intros Hin. apply elem_of_cons in Hin as [Hin|Hin]; [discriminate|].
      by apply not_elem_of_nil in Hin.
    + intros Hz. rewrite bool_decide_eq_true_2 by done.
      apply list_elem_of_further, list_elem_of_here.
Qed.

Lemma decrement_never_underflows_witness :
  let b := mkBackend None 7 (mkPrepared None) 10000 1 (mkCassSession [] []) [] in
  exists b', decrementOutstandingRequestCount false b
             = Ret (b', [notify_throttleCv; notify_syncCv]) /\
             numRequestsOutstanding_ b' = 0.
Proof.
  intros b.
  destruct (decrement_never_underflows false b) as [_ H]; [simpl; lia|].
  destruct H as (b' & notified & Heq & Hn & _ & _ & _ & _ & Hl); [simpl; lia|].
  exists b'. rewrite Heq, Hl, Hn. simpl. split; reflexivity.
Defined.

End Counter.

(** ** Synchronous driver calls *)

Section SyncCalls.


Lemma isTimeout_iff rc :
  isTimeout rc = true <->
  rc = CASS_ERROR_LIB_NO_HOSTS_AVAILABLE \/
  rc = CASS_ERROR_LIB_REQUEST_TIMED_OUT \/
  rc = CASS_ERROR_SERVER_UNAVAILABLE \/
  rc = CASS_ERROR_SERVER_OVERLOADED \/
  rc = CASS_ERROR_SERVER_READ_TIMEOUT.
Proof.
  split.
  - destruct rc; simpl; intros H; try discriminate; auto 6.
  - intros [->|[->|[->|[->| ->]]]]; reflexivity.
Qed.

Lemma retry_until_ok_app stmt timedOut pre fut post log :
  Forall (fun f => fut_error_code f <> CASS_OK) pre ->
  fut_error_code fut = CASS_OK ->
  retry_until_ok stmt timedOut (pre ++ fut :: post) log
  = Some (fut, timedOut || bool_decide (pre <> []),
          mkCassSession post (log ++ replicate (S (length pre)) stmt)).
Proof.
  intros Hpre Hfut. revert timedOut log.
  induction Hpre as [|f pre Hf Hpre IH]; intros timedOut log; simpl.
  - unfold is_ok. rewrite bool_decide_eq_true_2 by done.
    by rewrite orb_false_r.
  - unfold is_ok at 1. rewrite bool_decide_eq_false_2 by done.
    rewrite IH. simpl. rewrite orb_true_r.
    by rewrite <- (assoc_L (++)).
Qed.

Lemma executeSyncRead_loop_app stmt pre fut post log :
  Forall (fun f => decisive (fut_error_code f) = false) pre ->
  decisive (fut_error_code fut) = true ->
  executeSyncRead_loop stmt (pre ++ fut :: post) log
  = Some ((if isTimeout (fut_error_code fut) then Raise DatabaseTimeout
           else if bool_decide (fut_error_code fut = CASS_ERROR_SERVER_INVALID_QUERY)
           then Raise (runtime_error "invalid query")
           else Ret (fut_rows fut)),
          mkCassSession post (log ++ replicate (S (length pre)) stmt)).
Proof.
  intros Hpre Hfut. revert log.
  induction Hpre as [|f pre Hf Hpre IH]; intros log; simpl.
  - unfold decisive in Hfut.
    destruct (isTimeout (fut_error_code fut)); [done|].
    case_bool_decide; [done|].
    simpl in Hfut. by rewrite Hfut.
  - unfold decisive in Hf.
    apply orb_false_iff in Hf as [Hf Hok].
    apply orb_false_iff in Hf as [Ht Hi].
    rewrite Ht, Hi, Hok, IH. simpl.
    by rewrite <- (assoc_L (++)).
Qed.

(** C5.  [isTimeout] holds of exactly the five timeout-class codes.  A
    call of [executeSyncRead] goes through the driver's outcomes in order:
    an outcome that is neither OK, nor of the timeout class, nor "invalid
    query" is retried (the statement is executed again); at the first other
    outcome the call ends, with [DatabaseTimeout] exactly when that outcome
    is of the timeout class, with the [runtime_error] "invalid query" when
    it is that, and with the result when it is OK. *)
Theorem executeSyncRead_classifies
    (statement : CassandraStatement) (b : CassandraBackend)
    (pre : list CassFuture) (fut : CassFuture) (post : list CassFuture) :
  pending (session_ b) = pre ++ fut :: post ->
  Forall (fun f => decisive (fut_error_code f) = false) pre ->
  decisive (fut_error_code fut) = true ->
  (forall rc, isTimeout rc = true <->
     rc = CASS_ERROR_LIB_NO_HOSTS_AVAILABLE \/
     rc = CASS_ERROR_LIB_REQUEST_TIMED_OUT \/
     rc = CASS_ERROR_SERVER_UNAVAILABLE \/
     rc = CASS_ERROR_SERVER_OVERLOADED \/
     rc = CASS_ERROR_SERVER_READ_TIMEOUT) /\
  exists r b',
    executeSyncRead statement b = Some (r, b') /\
    (r = Raise DatabaseTimeout <-> isTimeout (fut_error_code fut) = true) /\
    (fut_error_code fut = CASS_ERROR_SERVER_INVALID_QUERY ->
       r = Raise (runtime_error "invalid query")) /\
    (fut_error_code fut = CASS_OK -> r = Ret (fut_rows fut)) /\
    pending (session_ b') = post /\
    executed (session_ b')
    = executed (session_ b) ++ replicate (S (length pre)) (get statement).
Proof.
  intros Hp Hpre Hfut. split; [apply isTimeout_iff|].
  unfold executeSyncRead. rewrite Hp, (executeSyncRead_loop_app _ _ _ _ _ Hpre Hfut).
  eexists _, _. split; [reflexivity|]. simpl.
  repeat split.
  - destruct (isTimeout (fut_error_code fut)); [done|].
    case_bool_decide; discriminate.
  - intros ->. done.
  - intros ->. reflexivity.
  - intros ->. reflexivity.
Qed.

Lemma executeSyncRead_classifies_witness :
  let statement := mkStatement (Some (mkCassStatement "select" [] [])) 0 in
  let b := mkBackend None 0 (mkPrepared None) 10000 0
             (mkCassSession
                [mkCassFuture CASS_ERROR_SERVER_SERVER_ERROR [];
                 mkCassFuture CASS_ERROR_SERVER_READ_TIMEOUT [];
                 mkCassFuture CASS_OK []] []) [] in
  exists b', executeSyncRead statement b = Some (Raise DatabaseTimeout, b') /\
             pending (session_ b') = [mkCassFuture CASS_OK []].
Proof.
  intros statement b.
  destruct (executeSyncRead_classifies statement b
              [mkCassFuture CASS_ERROR_SERVER_SERVER_ERROR []]
              (mkCassFuture CASS_ERROR_SERVER_READ_TIMEOUT [])
              [mkCassFuture CASS_OK []])
    as (_ & r & b' & Heq & Hto & _ & _ & Hpost & _).
  - reflexivity.
  - repeat constructor.
  - reflexivity.
  - exists b'. split; [|exact Hpost].
    rewrite Heq. f_equal. f_equal. apply Hto. reflexivity.
Defined.

(** Whatever is decisive first decides: the three ways [executeSyncRead]
    ends, on one-outcome scripts. *)
Example executeSyncRead_invalid_query_fails_fast statement b0 :
  fst <$> executeSyncRead statement
            (set_session (mkCassSession
               [mkCassFuture CASS_ERROR_SERVER_INVALID_QUERY [];
                mkCassFuture CASS_OK []] []) b0)
  = Some (Raise (runtime_error "invalid query")).
Proof. reflexivity. Qed.

(** C3, amended.  [executeSyncUpdate] repeats the statement until the
    driver answers OK.  It then returns true exactly when the answer has a
    first row whose first column reads as a boolean, and that boolean is
    true or some earlier attempt of this call failed, with whatever error
    code: of the timeout class or not. *)
Theorem executeSyncUpdate_true_iff
    (statement : CassandraStatement) (b : CassandraBackend)
    (pre : list CassFuture) (fut : CassFuture) (post : list CassFuture) :
  pending (session_ b) = pre ++ fut :: post ->
  Forall (fun f => fut_error_code f <> CASS_OK) pre ->
  fut_error_code fut = CASS_OK ->
  exists r b',
    executeSyncUpdate statement b = Some (Ret r, b') /\
    pending (session_ b') = post /\
    (r = true <->
     exists row applied,
       cass_result_first_row (fut_rows fut) = Some row /\
       cass_row_get_column row 0 = Some (CassBool applied) /\
       (applied = true \/ pre <> [])).
Proof.
  intros Hp Hpre Hfut. unfold executeSyncUpdate.
  rewrite Hp, (retry_until_ok_app _ _ _ _ _ _ Hpre Hfut). simpl.
  destruct (cass_result_first_row (fut_rows fut)) as [row|] eqn:Hrow.
  - destruct (cass_row_get_column row 0) as [[applied| | | |]|] eqn:Hcol; simpl;
      eexists _, _; (split; [reflexivity|]); (split; [reflexivity|]).
    + split.
      * intros Hr. exists row, applied. split; [done|]. split; [done|].
        apply orb_true_iff in Hr as [Hr|Hr]; [by left|right].
        by apply bool_decide_eq_true in Hr.
      * intros (row' & applied' & [= <-] & Hc & Hor).
        assert (applied' = applied) as -> by congruence.
        apply orb_true_iff. destruct Hor as [Ha|Hne]; [by left|right].
        by apply bool_decide_eq_true.
    + split; [done|]. intros (? & ? & [= <-] & ? & _). congruence.
    + split; [done|]. intros (? & ? & [= <-] & ? & _). congruence.
    + split; [done|]. intros (? & ? & [= <-] & ? & _). congruence.
    + split; [done|]. intros (? & ? & [= <-] & ? & _). congruence.
    + split; [done|]. intros (? & ? & [= <-] & ? & _). congruence.
  - eexists _, _. split; [reflexivity|]. split; [reflexivity|].
    split; [done|]. by intros (? & ? & ? & _).
Qed.


Lemma executeSyncUpdate_true_iff_witness :
  exists b',
    executeSyncUpdate (mkStatement None 0) queue_full_then_not_applied
    = Some (Ret true, b') /\
    pending (session_ b') = [].
Proof.
  destruct (executeSyncUpdate_true_iff (mkStatement None 0) queue_full_then_not_applied
              [mkCassFuture CASS_ERROR_LIB_REQUEST_QUEUE_FULL []]
              (mkCassFuture CASS_OK [[CassBool false]]) [])
    as (r & b' & Heq & Hpost & Hr).
  - reflexivity.
  - repeat constructor. discriminate.
  - reflexivity.
  - exists b'. split; [|exact Hpost]. rewrite Heq.
    f_equal. f_equal. f_equal. apply Hr.
    exists [CassBool false], false. repeat split. right. discriminate.
Defined.

(** C3 as stated fails: the request queue was full on the first attempt
    (not a timeout-class code) and the second attempt answered "not
    applied"; the call returns true. *)
Lemma executeSyncUpdate_true_without_timeout :
  ~ update_true_iff_applied_or_timeout (mkStatement None 0) queue_full_then_not_applied.
Proof.
  intros H.
  destruct (H true (set_session (mkCassSession [] [None; None])
                      queue_full_then_not_applied) eq_refl) as [Himp _].
  destruct (Himp eq_refl) as [Habs|Habs]; vm_compute in Habs; discriminate.
Qed.

(** In the other direction: a timeout followed by an answer without rows
    gives false. *)
Example executeSyncUpdate_timeout_no_rows b0 :
  fst <$> executeSyncUpdate (mkStatement None 0)
            (set_session (mkCassSession
               [mkCassFuture CASS_ERROR_LIB_REQUEST_TIMED_OUT [];
                mkCassFuture CASS_OK []] []) b0)
  = Some (Ret false).
Proof. reflexivity. Qed.

End SyncCalls.

(** ** The range: reading it with retries, advancing it *)

Section Range.

Lemma hardFetchLedgerRangeNoThrow_from_timeouts n calls script :
  hardFetchLedgerRangeNoThrow_from calls (replicate n (Raise DatabaseTimeout) ++ script)
  = hardFetchLedgerRangeNoThrow_from (n + calls) script.
Proof.
  revert calls. induction n as [|n IH]; intros calls; simpl; [done|].
  rewrite IH. f_equal. lia.
Qed.

(** C6.  After any number [n] of calls of [hardFetchLedgerRange] that
    raise [DatabaseTimeout], the wrapper returns what call [n+1] returns,
    or lets the [runtime_error] that call [n+1] throws through, and has
    then called the underlying method [n+1] times; while the underlying
    method keeps timing out the wrapper keeps calling it.  With two
    timeouts and then [[1,100]] it returns [[1,100]] after exactly three
    calls. *)
Theorem hardFetchLedgerRangeNoThrow_retries_timeouts :
  (forall n r script,
     hardFetchLedgerRangeNoThrow (replicate n (Raise DatabaseTimeout) ++ Ret r :: script)
     = Some (Ret r, S n)) /\
  (forall n what script,
     hardFetchLedgerRangeNoThrow
       (replicate n (Raise DatabaseTimeout) ++ Raise (runtime_error what) :: script)
     = Some (Raise (runtime_error what), S n)) /\
  (forall n, hardFetchLedgerRangeNoThrow (replicate n (Raise DatabaseTimeout)) = None) /\
  hardFetchLedgerRangeNoThrow
    [Raise DatabaseTimeout; Raise DatabaseTimeout; Ret (Some (mkLedgerRange 1 100))]
  = Some (Ret (Some (mkLedgerRange 1 100)), 3%nat).
Proof.
  unfold hardFetchLedgerRangeNoThrow. repeat split.
  - intros n r script. rewrite hardFetchLedgerRangeNoThrow_from_timeouts.
    simpl. do 2 f_equal. lia.
  - intros n what script. rewrite hardFetchLedgerRangeNoThrow_from_timeouts.
    simpl. do 2 f_equal. lia.
  - intros n. rewrite <- (app_nil_r (replicate n _)).
    by rewrite hardFetchLedgerRangeNoThrow_from_timeouts.
Qed.

(** The body of [doFinishWrites] reads [range] and never writes it. *)

Lemma set_numRequestsOutstanding_id b :
  set_numRequestsOutstanding (numRequestsOutstanding_ b) b = b.
Proof. by destruct b. Qed.

(** A completion is what [finishAsyncWrite()] does to a counter that is
    not zero. *)
Lemma completeRequest_finishAsyncWrite NDEBUG b :
  numRequestsOutstanding_ b <> 0 ->
  exists notified, finishAsyncWrite NDEBUG b = Ret (completeRequest b, notified).
Proof.
  intros Hnz. unfold finishAsyncWrite, decrementOutstandingRequestCount, completeRequest.
  rewrite !bool_decide_eq_false_2 by done. by eexists.
Qed.

(** Completions change the counter and nothing else; a wait changes the
    counter and the script of completions, and ends with its predicate
    true. *)
Lemma completeRequest_counter_only b :
  exists m, completeRequest b = set_numRequestsOutstanding m b.
Proof.
  unfold completeRequest. case_bool_decide; [|by eexists].
  exists (numRequestsOutstanding_ b). by rewrite set_numRequestsOutstanding_id.
Qed.

Lemma completeRequests_counter_only n b :
  exists m, Nat.iter n completeRequest b = set_numRequestsOutstanding m b.
Proof.
  induction n as [|n [m IH]]; simpl.
  - exists (numRequestsOutstanding_ b). by rewrite set_numRequestsOutstanding_id.
  - rewrite IH. destruct (completeRequest_counter_only (set_numRequestsOutstanding m b))
      as [m' ->]. by exists m'.
Qed.

Lemma completeRequests_counter n b :
  0 <= numRequestsOutstanding_ b < 2 ^ 32 ->
  numRequestsOutstanding_ (Nat.iter n completeRequest b)
  = Z.max 0 (numRequestsOutstanding_ b - Z.of_nat n).
Proof.
  intros Hr. induction n as [|n IH]; simpl; [lia|].
  unfold completeRequest at 1. case_bool_decide as Hz.
  - rewrite IH in Hz |- *. lia.
  - simpl. rewrite IH in Hz |- *. unfold wrap32. rewrite Z.mod_small by lia. lia.
Qed.

Lemma cv_wait_inv pred periods b b' :
  cv_wait pred periods b = Some b' ->
  pred b' = true /\
  exists m rest,
    b' = set_numRequestsOutstanding m (set_completions rest b) /\
    (length rest < length periods)%nat.
Proof.
  revert b. induction periods as [|n periods IH]; intros b; simpl; [done|].
  destruct (completeRequests_counter_only n (set_completions periods b)) as [m Hm].
  destruct (pred (Nat.iter n completeRequest (set_completions periods b))) eqn:Hpred.
  - intros [= <-]. split; [done|]. exists m, periods. split; [done|lia].
  - intros H. apply IH in H as (Hp & m' & rest & -> & Hlen).
    split; [done|]. exists m', rest. rewrite Hm. split; [done|lia].
Qed.

Lemma wait_inv pred b res b' :
  wait pred b = Some (res, b') ->
  res = Ret tt /\ pred b' = true /\
  (b' = b \/
   pred b = false /\
   exists m rest,
     b' = set_numRequestsOutstanding m (set_completions rest b) /\
     (length rest < length (completions b))%nat).
Proof.
  unfold wait. destruct (pred b) eqn:Hpred.
  - intros [= <- <-]. auto.
  - destruct (cv_wait pred (completions b) b) as [b1|] eqn:Hw; [|done].
    intros [= <- <-]. apply cv_wait_inv in Hw as (Hp & m & rest & Heq & Hlen).
    split; [done|]. split; [done|]. right. split; [done|]. by exists m, rest.
Qed.

Lemma sync_inv b res b' :
  sync b = Some (res, b') ->
  res = Ret tt /\ numRequestsOutstanding_ b' = 0 /\
  range b' = range b /\ session_ b' = session_ b.
Proof.
  intros H. apply wait_inv in H as (-> & Hp & Hb).
  apply bool_decide_eq_true in Hp.
  split; [done|]. split; [done|].
  destruct Hb as [->|(_ & m & rest & -> & _)]; by simpl.
Qed.

(** The barrier opens once the driver has completed what is outstanding. *)
Lemma cv_wait_sync_returns periods b :
  0 < numRequestsOutstanding_ b < 2 ^ 32 ->
  numRequestsOutstanding_ b <= Z.of_nat (sum_list periods) ->
  exists b', cv_wait finishedAllRequests periods b = Some b'.
Proof.
  revert b. induction periods as [|n periods IH]; intros b Hr Hsum; simpl in *; [lia|].
  destruct (finishedAllRequests (Nat.iter n completeRequest (set_completions periods b)))
    eqn:Hpred; [by eexists|].
  apply IH; apply bool_decide_eq_false in Hpred;
    rewrite completeRequests_counter in Hpred |- * by (simpl; lia); simpl in *; lia.
Qed.

Lemma sync_returns b :
  0 <= numRequestsOutstanding_ b < 2 ^ 32 ->
  numRequestsOutstanding_ b <= Z.of_nat (sum_list (completions b)) ->
  exists b', sync b = Some (Ret tt, b').
Proof.
  intros Hr Hsum. unfold sync, wait.
  destruct (finishedAllRequests b) eqn:Hpred; [by eexists|].
  apply bool_decide_eq_false in Hpred.
  destruct (cv_wait_sync_returns (completions b) b) as [b' ->]; [lia|done|by eexists].
Qed.

Lemma executeSyncWrite_range statement b res b' :
  executeSyncWrite statement b = Some (res, b') ->
  range b' = range b /\ numRequestsOutstanding_ b' = numRequestsOutstanding_ b.
Proof.
  unfold executeSyncWrite.
  destruct (retry_until_ok _ _ _ _) as [[[? ?] ?]|]; [|done].
  by intros [= _ <-].
Qed.

Lemma executeSyncUpdate_range statement b res b' :
  executeSyncUpdate statement b = Some (res, b') ->
  range b' = range b /\ numRequestsOutstanding_ b' = numRequestsOutstanding_ b.
Proof.
  unfold executeSyncUpdate.
  destruct (retry_until_ok _ _ _ _) as [[[fut ?] ?]|]; [|done].
  destruct (cass_result_first_row _) as [row|]; [|by intros [= _ <-]].
  destruct (cass_value_get_bool _) as [rc success].
  destruct (is_ok rc); by intros [= _ <-].
Qed.

(** The retry loops leave at the first OK answer of the script. *)
Lemma retry_until_ok_returns stmt timedOut futs log :
  (1 <= ok_answers futs)%nat ->
  exists fut timedOut' session',
    retry_until_ok stmt timedOut futs log = Some (fut, timedOut', session') /\
    ok_answers (pending session') = (ok_answers futs - 1)%nat.
Proof.
  unfold ok_answers. revert timedOut log.
  induction futs as [|fut futs IH]; intros timedOut log; simpl; [lia|].
  rewrite filter_cons. unfold is_ok. case_bool_decide as Hok.
  - rewrite decide_True by done. intros _. eexists _, _, _. split; [done|].
    simpl. lia.
  - rewrite decide_False by done. intros Hle. by apply IH.
Qed.

Lemma executeSyncWrite_returns statement b :
  (1 <= ok_answers (pending (session_ b)))%nat ->
  exists b',
    executeSyncWrite statement b = Some (Ret tt, b') /\
    ok_answers (pending (session_ b')) = (ok_answers (pending (session_ b)) - 1)%nat.
Proof.
  intros Hok. unfold executeSyncWrite.
  destruct (retry_until_ok_returns (get statement) false (pending (session_ b))
              (executed (session_ b)) Hok) as (fut & t & session' & -> & Hrest).
  by eexists.
Qed.

Lemma executeSyncUpdate_returns statement b :
  (1 <= ok_answers (pending (session_ b)))%nat ->
  exists r b', executeSyncUpdate statement b = Some (Ret r, b').
Proof.
  intros Hok. unfold executeSyncUpdate.
  destruct (retry_until_ok_returns (get statement) false (pending (session_ b))
              (executed (session_ b)) Hok) as (fut & t & session' & -> & Hrest).
  destruct (cass_result_first_row _) as [row|]; [|by eexists _, _].
  destruct (cass_value_get_bool _) as [rc success].
  destruct (is_ok rc); by eexists _, _.
Qed.

Lemma M_bind_inv {A B} (f : A -> M B) (m : M A) b res b' :
  (m ≫= f) b = Some (res, b') ->
  (exists a b1, m b = Some (Ret a, b1) /\ f a b1 = Some (res, b')) \/
  (m b = None -> False) /\
  (forall a, res <> Ret a) /\
  exists res1, m b = Some (res1, b') /\ forall a, res1 <> Ret a.
Proof.
  unfold mbind, M_mbind, M_bind.
  destruct (m b) as [[[a|e| |] b1]|]; [| | | |done].
  - intros H. left. eauto.
  - intros [= <- <-]. right. repeat split; [done..|]. eexists. split; [done|]. done.
  - intros [= <- <-]. right. repeat split; [done..|]. eexists. split; [done|]. done.
  - intros [= <- <-]. right. repeat split; [done..|]. eexists. split; [done|]. done.
Qed.

Lemma lift_inv {A} (x : outcome A) b res b' :
  lift x b = Some (res, b') -> res = x /\ b' = b.
Proof. by intros [= <- <-]. Qed.

(** [doFinishWrites] never writes [range], and comes back with nothing
    outstanding. *)
Lemma doFinishWrites_range b res b' :
  doFinishWrites b = Some (res, b') ->
  range b' = range b /\ numRequestsOutstanding_ b' = 0.
Proof.
  unfold doFinishWrites. intros H.
  apply M_bind_inv in H as [(a & b1 & Hs & H)|(_ & _ & res1 & Hs & Hne)];
    [|apply sync_inv in Hs as (-> & _); by destruct (Hne tt)].
  apply sync_inv in Hs as (_ & Hzero & Hrange & _).
  rewrite <- Hrange, <- Hzero.
  assert (Hfirst : forall res1 b2,
    (if range b is None
     then statement ← lift (rangeStatement (updateLedgerRange_ b)
                              (ledgerSequence_ b) false (ledgerSequence_ b));
          executeSyncWrite statement
     else mret tt) b1 = Some (res1, b2) ->
    range b2 = range b1 /\ numRequestsOutstanding_ b2 = numRequestsOutstanding_ b1).
  { intros res1 b2. destruct (range b) as [r|].
    - by intros [= _ <-].
    - intros H1.
      apply M_bind_inv in H1 as [(st & b3 & Hl & H1)|(_ & _ & res2 & Hl & _)].
      + apply lift_inv in Hl as [_ ->]. by apply executeSyncWrite_range in H1.
      + by apply lift_inv in Hl as [_ ->]. }
  apply M_bind_inv in H as [(u & b2 & H1 & H)|(_ & _ & res1 & H1 & _)];
    [|by apply Hfirst in H1].
  apply Hfirst in H1 as [<- <-].
  apply M_bind_inv in H as [(st & b3 & Hl & H)|(_ & _ & res2 & Hl & _)];
    [|by apply lift_inv in Hl as [_ ->]].
  apply lift_inv in Hl as [_ ->].
  apply M_bind_inv in H as [(ok & b4 & Hu & H)|(_ & _ & res3 & Hu & _)];
    [|by apply executeSyncUpdate_range in Hu].
  apply executeSyncUpdate_range in Hu as [<- <-].
  destruct ok; by injection H as _ <-.
Qed.

Lemma M_bind_returns {A B} (f : A -> M B) (m : M A) b ra b1 :
  m b = Some (ra, b1) ->
  (forall a, ra = Ret a -> exists res b', f a b1 = Some (res, b')) ->
  exists res b', (m ≫= f) b = Some (res, b').
Proof.
  intros Hm Hf. unfold mbind, M_mbind, M_bind. rewrite Hm.
  destruct ra as [a|e| |]; [by apply Hf|by eexists _, _..].
Qed.

(** [doFinishWrites] comes back once the driver has completed what is
    outstanding and has answered OK to each statement: the insert when
    there is no range yet, and the conditional update. *)
Lemma doFinishWrites_returns b :
  0 <= numRequestsOutstanding_ b < 2 ^ 32 ->
  numRequestsOutstanding_ b <= Z.of_nat (sum_list (completions b)) ->
  ((if range b is None then 2 else 1) <= ok_answers (pending (session_ b)))%nat ->
  exists res b', doFinishWrites b = Some (res, b').
Proof.
  intros Hr Hsum Hok. unfold doFinishWrites.
  destruct (sync_returns b Hr Hsum) as [b1 Hs].
  pose proof (sync_inv _ _ _ Hs) as (_ & _ & _ & Hsess).
  eapply M_bind_returns; [exact Hs|]. intros _ _.
  assert (Hfirst : exists ra b2,
    (if range b is None
     then statement ← lift (rangeStatement (updateLedgerRange_ b)
                              (ledgerSequence_ b) false (ledgerSequence_ b));
          executeSyncWrite statement
     else mret tt) b1 = Some (ra, b2) /\
    (1 <= ok_answers (pending (session_ b2)))%nat).
  { destruct (range b) as [r|].
    - eexists _, _. split; [done|]. by rewrite Hsess.
    - unfold mbind, M_mbind, M_bind, lift.
      destruct (rangeStatement _ _ _ _) as [st|e| |];
        [|eexists _, _; split; [done|rewrite Hsess; lia]..].
      destruct (executeSyncWrite_returns st b1) as (b2 & -> & Hrest);
        [rewrite Hsess; lia|].
      eexists _, _. split; [done|]. rewrite Hrest, Hsess. lia. }
  destruct Hfirst as (ra & b2 & Hfirst & Hok2).
  eapply M_bind_returns; [exact Hfirst|]. intros _ _.
  eapply M_bind_returns; [done|]. intros st _.
  destruct (executeSyncUpdate_returns st b2 Hok2) as (r & b3 & Hu).
  eapply M_bind_returns; [exact Hu|]. intros ok _.
  destruct (negb ok); by eexists _, _.
Qed.

(** C2.  Whatever is outstanding when [finishWrites(S)] is called: when
    it returns true the in-memory range ends at [S]; when it returns false,
    or leaves through an exception, the in-memory range is what it was; in
    each case every write that was outstanding has completed.  The call
    does come back, once the driver has completed the outstanding writes
    and has answered OK to the statements of the range (the insert when
    there is no range yet, and the conditional update). *)
Theorem finishWrites_range (S : uint32) (b : CassandraBackend) :
  (forall res b',
     finishWrites S b = Some (res, b') ->
     (res = Ret true -> maxSequence <$> range b' = Some S) /\
     (res = Ret false -> range b' = range b) /\
     (res <> Ret true -> range b' = range b) /\
     numRequestsOutstanding_ b' = 0) /\
  (0 <= numRequestsOutstanding_ b < 2 ^ 32 ->
   numRequestsOutstanding_ b <= Z.of_nat (sum_list (completions b)) ->
   ((if range b is None then 2 else 1) <= ok_answers (pending (session_ b)))%nat ->
   exists res b', finishWrites S b = Some (res, b')).
Proof.
  unfold finishWrites. split.
  - intros res b' H.
    apply M_bind_inv in H as [(commitRes & b1 & Hd & H)|(_ & Hne & res1 & Hd & _)].
    + apply doFinishWrites_range in Hd as [Hd Hzero].
      destruct commitRes; simpl in H.
      * unfold mbind, M_mbind, M_bind, updateRange in H.
        destruct (range b1) as [r|] eqn:Hr; injection H as <- <-; simpl;
          (split; [done|]); (split; [intros; congruence|]);
          (split; [intros; congruence|done]).
      * injection H as <- <-. rewrite Hd.
        split; [discriminate|]. by repeat split.
    + apply doFinishWrites_range in Hd as [Hd Hzero].
      split; [intros ->; by destruct (Hne true)|].
      split; [intros ->; by destruct (Hne false)|done].
  - intros Hr Hsum Hok.
    destruct (doFinishWrites_returns b Hr Hsum Hok) as (ra & b1 & Hd).
    eapply M_bind_returns; [exact Hd|]. intros commitRes _.
    assert (exists ru b2,
      (if commitRes then updateRange S else mret tt) b1 = Some (ru, b2))
      as (ru & b2 & Hu).
    { destruct commitRes; [unfold updateRange; destruct (range b1)|]; by eexists _, _. }
    eapply M_bind_returns; [exact Hu|]. intros; by eexists _, _.
Qed.

Lemma finishWrites_range_witness :
  exists b',
    finishWrites 6 committing_6_after_writes = Some (Ret true, b') /\
    maxSequence <$> range b' = Some 6 /\
    numRequestsOutstanding_ b' = 0.
Proof.
  destruct (finishWrites_range 6 committing_6_after_writes) as [Hret Hcomes].
  destruct Hcomes as (res & b' & Heq);
    [unfold committing_6_after_writes; simpl; lia
    |unfold committing_6_after_writes; simpl; lia
    |vm_compute; lia|].
  assert (Hres : res = Ret true) by (vm_compute in Heq; congruence).
  subst res. exists b'. split; [exact Heq|].
  destruct (Hret _ _ Heq) as (Htrue & _ & _ & Hzero).
  split; [by apply Htrue | exact Hzero].
Defined.

(** With writes outstanding that the driver never completes, the call
    never comes back. *)
Example finishWrites_waits_for_writes :
  finishWrites 6 (set_completions [] committing_6_after_writes) = None /\
  finishWrites 6 (set_completions [1; 1]%nat committing_6_after_writes) = None.
Proof. split; reflexivity. Qed.

(** The same ledger when the conditional update answers "not applied":
    false, and the range stays [[1,5]]. *)
Example finishWrites_not_applied :
  let b := set_session (mkCassSession [mkCassFuture CASS_OK [[CassBool false]]] [])
             committing_6 in
  (fun r => (r.1, range r.2)) <$> finishWrites 6 b
  = Some (Ret false, Some (mkLedgerRange 1 5)).
Proof. reflexivity. Qed.

(** On an empty range the insert is executed before the conditional
    update; both statements carry the boolean in slot 1. *)
Example finishWrites_first_ledger :
  let b := mkBackend None 5
             (mkPrepared (Some (mkCassPrepared "UPDATE ledger_range" range_param_types)))
             10000 0
             (mkCassSession [mkCassFuture CASS_OK [];
                             mkCassFuture CASS_OK [[CassBool true]]] []) [] in
  (fun r => (r.1, range r.2, executed (session_ r.2))) <$> finishWrites 5 b
  = Some (Ret true, Some (mkLedgerRange 5 5),
          [Some (mkCassStatement "UPDATE ledger_range" range_param_types
                   [Some (CassInt64 5); Some (CassBool false); Some (CassInt64 5)]);
           Some (mkCassStatement "UPDATE ledger_range" range_param_types
                   [Some (CassInt64 5); Some (CassBool true); Some (CassInt64 4)])]).
Proof. reflexivity. Qed.

End Range.

(** ** The read path *)

Section Reads.

Context (rp : ReadPath).



Lemma lookupCache_length keys sequence :
  length (lookupCache rp keys sequence).1 = length keys.
Proof.
  induction keys as [|key keys IH]; simpl; [done|].
  destruct (lookupCache rp keys sequence) as [results misses].
  destruct (cache_get rp key sequence); simpl in *; by rewrite IH.
Qed.

Lemma fillMisses_length results objs j filled :
  fillMisses results objs j = Ret filled -> length filled = length results.
Proof.
  revert j filled. induction results as [|r results IH]; intros j filled; simpl.
  - by intros [= <-].
  - destruct (blob_empty r).
    + destruct (objs !! j) as [obj|]; [|done].
      destruct (fillMisses results objs (S j)) as [rest| | |] eqn:Hrest; try done.
      intros [= <-]. simpl. f_equal. by eapply IH.
    + destruct (fillMisses results objs j) as [rest| | |] eqn:Hrest; try done.
      intros [= <-]. simpl. f_equal. by eapply IH.
Qed.

(** Whatever the cache and the store do, a batch read that returns has one
    blob per key. *)
Lemma fetchLedgerObjects_length keys sequence results :
  fetchLedgerObjects rp keys sequence = Ret results ->
  length results = length keys.
Proof.
  unfold fetchLedgerObjects.
  pose proof (lookupCache_length keys sequence) as Hlen.
  destruct (lookupCache rp keys sequence) as [res misses]. simpl in Hlen.
  destruct misses as [|m misses].
  - by intros [= <-].
  - intros H. apply fillMisses_length in H. congruence.
Qed.

(** The second loop, started at [j] with the misses that remain being
    [objs[j..]]: every empty slot takes the blob of its own key. *)
Lemma fillMisses_lookupCache keys sequence before :
  cache_hits_nonempty rp sequence ->
  fillMisses (lookupCache rp keys sequence).1
    (before ++ ((fun key => blob_of (doFetchLedgerObject rp key sequence))
                <$> (lookupCache rp keys sequence).2))
    (length before)
  = Ret ((fun key => blob_of (fetchLedgerObject rp key sequence)) <$> keys).
Proof.
  intros Hhit. revert before.
  induction keys as [|key keys IH]; intros before; simpl; [done|].
  destruct (lookupCache rp keys sequence) as [results misses] eqn:Hlc.
  unfold fetchLedgerObject at 1.
  destruct (cache_get rp key sequence) as [obj|] eqn:Hget; simpl in *.
  - destruct obj as [|byte obj]; [by destruct (Hhit _ _ Hget)|]. simpl.
    by rewrite IH.
  - rewrite lookup_app_r, Nat.sub_diag by done. simpl.
    specialize (IH (before ++ [blob_of (doFetchLedgerObject rp key sequence)])).
    rewrite <- (assoc_L (++)), length_app, Nat.add_1_r in IH. simpl in IH.
    exact (f_equal (outcome_bind (fun rest =>
             Ret (blob_of (doFetchLedgerObject rp key sequence) :: rest))) IH).
Qed.

Lemma lookupCache_no_misses keys sequence :
  (lookupCache rp keys sequence).2 = [] ->
  (lookupCache rp keys sequence).1
  = (fun key => blob_of (fetchLedgerObject rp key sequence)) <$> keys.
Proof.
  induction keys as [|key keys IH]; simpl; [done|].
  destruct (lookupCache rp keys sequence) as [results misses].
  unfold fetchLedgerObject at 1.
  destruct (cache_get rp key sequence) as [obj|]; simpl in *; [|done].
  intros H. by rewrite IH.
Qed.

Lemma fetchLedgerObjects_map keys sequence :
  cache_hits_nonempty rp sequence ->
  batch_agrees rp sequence ->
  fetchLedgerObjects rp keys sequence
  = Ret ((fun key => blob_of (fetchLedgerObject rp key sequence)) <$> keys).
Proof.
  intros Hhit Hbatch. unfold fetchLedgerObjects.
  pose proof (fillMisses_lookupCache keys sequence [] Hhit) as Hfill.
  pose proof (lookupCache_no_misses keys sequence) as Hnone.
  destruct (lookupCache rp keys sequence) as [results misses]. simpl in *.
  destruct misses as [|m misses]; [by rewrite Hnone|].
  by rewrite Hbatch.
Qed.


End Reads.


Lemma read_path_batch_agrees cached stored sequence :
  batch_agrees (read_path cached stored) sequence.
Proof.
  intros keys. simpl. apply list_fmap_ext. intros _ key _.
  by destruct (table stored key) as [[|byte obj]|].
Qed.

Lemma read_path_cache_hits_nonempty (cached stored : list (uint256 * Blob)) sequence :
  Forall (fun row => row.2 <> []) cached ->
  cache_hits_nonempty (read_path cached stored) sequence.
Proof.
  intros Hall key obj. simpl. unfold table. intros Hget.
  apply fmap_Some in Hget as ([i row] & Hfind & ->).
  apply list_find_Some in Hfind as (Hi & _ & _).
  rewrite Forall_lookup in Hall. by apply (Hall i row).
Qed.






(** A tombstone of the store is hidden by this store's point read. *)
Example fetchLedgerObject_store_tombstone :
  fetchLedgerObject (read_path [(1, ab)] [(2, ab); (3, [])]) 3 10 = None.
Proof. reflexivity. Qed.

(** ** Ledger pages *)

Section Pages.

Context (rp : ReadPath).


Lemma successor_chain_snoc ledgerSequence start keys succ :
  successor_chain rp ledgerSequence start keys ->
  fetchSuccessorKey rp (default start (last keys)) ledgerSequence = Some succ ->
  successor_chain rp ledgerSequence start (keys ++ [succ]).
Proof.
  intros Hchain Hsucc i key Hi.
  destruct (decide (i < length keys)%nat) as [Hlt|Hge].
  - rewrite lookup_app_l in Hi by done.
    destruct i as [|i']; [by apply (Hchain 0%nat)|].
    rewrite lookup_app_l by lia. by apply (Hchain (S i')).
  - apply lookup_lt_Some in Hi as Hlen. rewrite length_app in Hlen. simpl in Hlen.
    assert (i = length keys) as -> by lia.
    rewrite lookup_app_r, Nat.sub_diag in Hi by done. injection Hi as <-.
    rewrite last_lookup in Hsucc.
    destruct (length keys) as [|n] eqn:Hn.
    + by apply nil_length_inv in Hn as ->.
    + simpl in Hsucc. by rewrite lookup_app_l by lia.
Qed.

Lemma collectKeys_spec turns cursor ledgerSequence limit keys0 :
  let start := default firstKey cursor in
  let keys := collectKeys rp turns cursor ledgerSequence limit keys0 in
  successor_chain rp ledgerSequence start keys0 ->
  (length keys0 <= limit)%nat ->
  (limit <= length keys0 + turns)%nat ->
  successor_chain rp ledgerSequence start keys /\
  (length keys <= limit)%nat /\
  ((length keys < limit)%nat ->
     fetchSuccessorKey rp (default start (last keys)) ledgerSequence = None).
Proof.
  simpl. revert keys0.
  induction turns as [|turns IH]; intros keys0 Hchain Hle Hturns; simpl.
  - split; [done|]. split; [done|]. lia.
  - case_bool_decide as Hlt; [|split; [done|]; split; [done|]; lia].
    assert (Hcur : match last keys0 with
                   | Some back => back
                   | None => match cursor with Some c => c | None => firstKey end
                   end = default (default firstKey cursor) (last keys0)).
    { by destruct (last keys0), cursor. }
    rewrite Hcur.
    destruct (fetchSuccessorKey rp _ ledgerSequence) as [succ|] eqn:Hsucc.
    + apply IH.
      * by apply successor_chain_snoc.
      * rewrite length_app. simpl. lia.
      * rewrite length_app. simpl. lia.
    + split; [done|]. split; [done|]. done.
Qed.

Lemma pushObjects_spec NDEBUG keys objects i acc :
  length objects = length (drop i keys) ->
  pushObjects NDEBUG keys objects i acc
  = (_ ← assert NDEBUG (forallb (fun object => negb (blob_empty object)) objects);
     Ret (acc ++ zip_with mkLedgerObject (drop i keys) objects)).
Proof.
  revert i acc. induction objects as [|object objects IH]; intros i acc Hlen.
  - simpl. destruct (drop i keys); [|done].
    destruct NDEBUG; simpl; by rewrite app_nil_r.
  - destruct (drop i keys) as [|key rest] eqn:Hdrop; [done|].
    assert (Hi : keys !! i = Some key).
    { by rewrite <- (Nat.add_0_r i), <- lookup_drop, Hdrop. }
    assert (Hrest : drop (S i) keys = rest).
    { pose proof (drop_S keys key i Hi) as Hd. rewrite Hdrop in Hd. congruence. }
    simpl in Hlen. injection Hlen as Hlen.
    cbn [pushObjects forallb zip_with].
    destruct NDEBUG.
    + simpl. rewrite Hi, IH by (by rewrite Hrest).
      simpl. by rewrite Hrest, <- (assoc_L (++)).
    + destruct (blob_empty object); simpl; [done|].
      rewrite Hi, IH by (by rewrite Hrest).
      by rewrite Hrest, <- (assoc_L (++)).
Qed.

Lemma zip_with_keys keys objects :
  length objects = length keys ->
  lo_key <$> zip_with mkLedgerObject keys objects = keys.
Proof.
  revert objects. induction keys as [|key keys IH]; intros [|object objects];
    simpl; try done.
  intros [= Hlen]. by rewrite IH.
Qed.

(** C4, amended.  For a [limit] of at least one, [fetchLedgerPage(cursor,
    seq, limit)] collects the successive successor keys of [cursor] (of
    [firstKey] when there is no cursor) until it has [limit] of them or the
    last one has no successor, fetches their objects in one batch, pairs
    every key with its object in order, and returns the last key as the
    cursor exactly when the page holds at least [limit] objects, no cursor
    otherwise.  An empty fetched object fails the [assert] unless
    [NDEBUG]. *)
Theorem fetchLedgerPage_pages (NDEBUG : bool) (cursor : option uint256)
    (ledgerSequence : uint32) (limit : nat) :
  (1 <= limit)%nat ->
  ledger_page_claim rp NDEBUG cursor ledgerSequence limit.
Proof.
  intros Hlimit.
  exists (collectKeys rp limit cursor ledgerSequence limit []).
  destruct (collectKeys_spec limit cursor ledgerSequence limit [])
    as (Hchain & Hle & Hend); [by intros [|?] ? | simpl; lia | simpl; lia |].
  simpl. split; [done|]. split; [done|]. split; [done|].
  unfold fetchLedgerPage.
  set (keys := collectKeys rp limit cursor ledgerSequence limit []) in *.
  destruct (fetchLedgerObjects rp keys ledgerSequence) as [objects| | |] eqn:Hobjs;
    try reflexivity.
  apply fetchLedgerObjects_length in Hobjs as Hlen.
  cbn [mbind outcome_mbind outcome_bind].
  rewrite pushObjects_spec by (by rewrite drop_0).
  rewrite drop_0. cbn [app].
  destruct (assert NDEBUG _); try reflexivity.
  cbn [mbind outcome_mbind outcome_bind].
  pose proof (zip_with_keys keys objects Hlen) as Hkeys.
  rewrite length_zip_with, Hlen, Nat.min_id.
  case_bool_decide as Hfull; [|done].
  pose proof (fmap_last lo_key (zip_with mkLedgerObject keys objects)) as Hlast.
  rewrite Hkeys in Hlast. rewrite Hlast.
  destruct (last (zip_with mkLedgerObject keys objects)) as [back|] eqn:Hback; [done|].
  apply last_None in Hback. rewrite Hback in Hkeys. simpl in Hkeys.
  rewrite <- Hkeys in Hfull. simpl in Hfull. lia.
Qed.

End Pages.

(** Three live keys at sequence 10: a page of two with cursor 2, then the
    page after 2 with the third key and no cursor. *)
Lemma fetchLedgerPage_pages_witness :
  let rp := read_path [] [(1, ab); (2, ab); (3, ab)] in
  ledger_page_claim rp false None 10 2 /\
  fetchLedgerPage rp false None 10 2
  = Ret (mkLedgerPage [mkLedgerObject 1 ab; mkLedgerObject 2 ab] (Some 2)) /\
  fetchLedgerPage rp false (Some 2) 10 2
  = Ret (mkLedgerPage [mkLedgerObject 3 ab] None).
Proof.
  intros rp. split; [|split; reflexivity].
  apply fetchLedgerPage_pages. lia.
Defined.

(** C4 as stated fails for a limit of zero: the page is empty, the test
    [page.objects.size() >= limit] passes, and [back()] is taken of an empty
    vector. *)
Lemma fetchLedgerPage_limit_0 :
  let rp := read_path [] [(1, ab); (2, ab); (3, ab)] in
  fetchLedgerPage rp false None 10 0 = Undefined /\
  ~ ledger_page_claim rp false None 10 0.
Proof.
  intros rp. split; [reflexivity|].
  intros (keys & _ & Hle & _ & Heq).
  destruct keys as [|key keys]; [|simpl in Hle; lia].
  vm_compute in Heq. discriminate.
Qed.

(** ** The request throttle *)

Section ThrottleBound.

Context (NDEBUG : bool).


Lemma count_pc_cons p q l :
  count_pc p (q :: l) = ((if decide (q = p) then 1 else 0) + count_pc p l)%nat.
Proof. unfold count_pc. rewrite filter_cons. by destruct (decide (q = p)). Qed.

Lemma count_pc_insert p l t q r :
  l !! t = Some q ->
  (count_pc p (<[t := r]> l) + (if decide (q = p) then 1 else 0)
   = count_pc p l + (if decide (r = p) then 1 else 0))%nat.
Proof.
  revert t. induction l as [|x l IH]; intros [|t] Ht; try done; simpl in *.
  - injection Ht as ->. rewrite !count_pc_cons. lia.
  - rewrite !count_pc_cons. specialize (IH t Ht). lia.
Qed.

Lemma count_pc_le p l : (count_pc p l <= length l)%nat.
Proof. unfold count_pc. apply length_filter. Qed.

Lemma count_pc_replicate_ne p q k : q <> p -> count_pc p (replicate k q) = 0%nat.
Proof.
  intros Hne. induction k as [|k IH]; [done|].
  simpl. rewrite count_pc_cons, IH. by destruct (decide (q = p)).
Qed.

Lemma step_preserves k cap a c c' :
  0 <= cap -> cap + Z.of_nat k <= 2 ^ 32 ->
  throttle_inv k cap c ->
  step NDEBUG a c = Some c' ->
  throttle_inv k cap c'.
Proof.
  intros Hcap Hk (Hlen & Hmax & Hcnt & Hbound) Hstep.
  pose proof (count_pc_le PastWait (threads c)) as HleA.
  destruct a as [t|t|t|]; simpl in Hstep.
  - (* LeaveWait *)
    unfold at_pc, canAddRequest in Hstep.
    case_bool_decide as Hpc; [|done]. case_bool_decide as Hadd; [|done].
    injection Hstep as <-. unfold throttle_inv. simpl.
    pose proof (count_pc_insert PastWait _ t Idle PastWait Hpc) as HA.
    pose proof (count_pc_insert Counted _ t Idle PastWait Hpc) as HC.
    pose proof (count_pc_le PastWait (<[t := PastWait]> (threads c))) as Hle.
    rewrite length_insert in Hle |- *.
    repeat case_decide; try done. repeat split; auto; lia.
  - (* Count *)
    unfold at_pc in Hstep. case_bool_decide as Hpc; [|done].
    injection Hstep as <-. unfold throttle_inv. simpl.
    pose proof (count_pc_insert PastWait _ t PastWait Counted Hpc) as HA.
    pose proof (count_pc_insert Counted _ t PastWait Counted Hpc) as HC.
    rewrite length_insert.
    repeat case_decide; try done.
    assert (Hw : wrap32 (numRequestsOutstanding_ (backend c) + 1)
                 = numRequestsOutstanding_ (backend c) + 1).
    { unfold wrap32. apply Z.mod_small. lia. }
    rewrite Hw. repeat split; auto; lia.
  - (* Execute *)
    unfold at_pc in Hstep. case_bool_decide as Hpc; [|done].
    injection Hstep as <-. unfold throttle_inv. simpl.
    pose proof (count_pc_insert PastWait _ t Counted Idle Hpc) as HA.
    pose proof (count_pc_insert Counted _ t Counted Idle Hpc) as HC.
    rewrite length_insert.
    repeat case_decide; try done. repeat split; auto; lia.
  - (* Complete *)
    destruct (inflight c) as [|n] eqn:Hfl; [done|].
    unfold finishAsyncWrite, decrementOutstandingRequestCount in Hstep.
    case_bool_decide as Hz; [by destruct NDEBUG|].
    injection Hstep as <-. unfold throttle_inv. simpl.
    assert (Hw : wrap32 (numRequestsOutstanding_ (backend c) - 1)
                 = numRequestsOutstanding_ (backend c) - 1).
    { unfold wrap32. apply Z.mod_small. lia. }
    rewrite Hw. repeat split; auto; lia.
Qed.

Lemma initial_inv b k :
  0 <= maxRequestsOutstanding b ->
  throttle_inv k (maxRequestsOutstanding b) (initial b k).
Proof.
  intros Hcap. unfold throttle_inv, initial. simpl.
  rewrite length_replicate, !count_pc_replicate_ne by done.
  repeat split; auto; lia.
Qed.

Lemma run_preserves k cap acts c c' :
  0 <= cap -> cap + Z.of_nat k <= 2 ^ 32 ->
  throttle_inv k cap c ->
  run NDEBUG acts c = Some c' ->
  throttle_inv k cap c'.
Proof.
  intros Hcap Hk. revert c.
  induction acts as [|a acts IH]; intros c Hinv; simpl.
  - by intros [= <-].
  - destruct (step NDEBUG a c) as [c1|] eqn:Hstep; [|done].
    apply IH. by eapply step_preserves.
Qed.

(** X9.  With [k] threads calling [executeAsyncWrite], the requests in
    flight never exceed the counter, and the counter never exceeds the cap
    by more than [k - 1]. *)
Lemma throttle_bound b k acts c :
  0 <= maxRequestsOutstanding b ->
  maxRequestsOutstanding b + Z.of_nat k <= 2 ^ 32 ->
  run NDEBUG acts (initial b k) = Some c ->
  Z.of_nat (inflight c) <= numRequestsOutstanding_ (backend c) /\
  numRequestsOutstanding_ (backend c) <= maxRequestsOutstanding b + Z.of_nat (k - 1).
Proof.
  intros Hcap Hk Hrun.
  destruct (run_preserves k _ acts _ c Hcap Hk (initial_inv b k Hcap) Hrun)
    as (_ & _ & Hcnt & Hbound).
  lia.
Qed.

(** One calling thread: the cap holds. *)
Lemma throttle_single_caller b acts c :
  0 <= maxRequestsOutstanding b < 2 ^ 32 ->
  run NDEBUG acts (initial b 1) = Some c ->
  Z.of_nat (inflight c) <= maxRequestsOutstanding b.
Proof.
  intros [Hcap Hmax] Hrun.
  destruct (run_preserves 1 _ acts _ c Hcap ltac:(lia) (initial_inv b 1 Hcap) Hrun)
    as (_ & _ & Hcnt & Hbound).
  simpl in Hbound. lia.
Qed.

(** A thread that finds room and increments with nobody in between does
    what the one-caller [incremementOutstandingRequestCount] does. *)
Lemma leave_wait_then_count t c b' :
  threads c !! t = Some Idle ->
  canAddRequest (backend c) = true ->
  incremementOutstandingRequestCount (backend c) = Some (Ret tt, b') ->
  run NDEBUG [LeaveWait t; Count t] c
  = Some (mkConfig b' (<[t := Counted]> (threads c)) (inflight c)).
Proof.
  unfold incremementOutstandingRequestCount, wait. intros Ht Hadd. rewrite Hadd.
  intros [= <-]. simpl. unfold at_pc. simpl.
  rewrite bool_decide_eq_true_2, Hadd by done. simpl.
  apply lookup_lt_Some in Ht as Hlt.
  rewrite bool_decide_eq_true_2 by (by apply list_lookup_insert_eq).
  by rewrite list_insert_insert_eq.
Qed.

(** At the cap no thread leaves the wait, and only a completion lowers the
    counter. *)
Lemma admission_blocked t c :
  canAddRequest (backend c) = false -> step NDEBUG (LeaveWait t) c = None.
Proof. intros H. simpl. rewrite H. by rewrite andb_false_r. Qed.

Lemma only_completion_decrements a c c' :
  0 <= numRequestsOutstanding_ (backend c) < 2 ^ 32 - 1 ->
  step NDEBUG a c = Some c' ->
  numRequestsOutstanding_ (backend c') < numRequestsOutstanding_ (backend c) ->
  a = Complete.
Proof.
  intros Hr Hstep Hlt. destruct a as [t|t|t|]; simpl in Hstep; [| | |done].
  - destruct (_ && _); [|done]. injection Hstep as <-. simpl in Hlt. lia.
  - destruct (at_pc c t PastWait); [|done]. injection Hstep as <-. simpl in Hlt.
    unfold wrap32 in Hlt. rewrite Z.mod_small in Hlt by lia. lia.
  - destruct (at_pc c t Counted); [|done]. injection Hstep as <-. simpl in Hlt. lia.
Qed.

End ThrottleBound.

Lemma throttle_bound_witness :
  exists c,
    run false [LeaveWait 0; LeaveWait 1; Count 0; Count 1; Execute 0]
        (initial cap_2 2) = Some c /\
    Z.of_nat (inflight c) <= numRequestsOutstanding_ (backend c) <= 2 + 1.
Proof.
  eexists. split; [reflexivity|].
  apply (throttle_bound false cap_2 2
           [LeaveWait 0; LeaveWait 1; Count 0; Count 1; Execute 0]);
    [simpl; lia | simpl; lia | reflexivity].
Defined.


(** C8 fails with two calling threads.  With a cap of two and one write
    in flight, both threads leave the wait (the counter reads 1 each time),
    then both increment: three writes are in flight. *)
Theorem throttle_overshoot :
  exists c,
    run false [LeaveWait 0; Count 0; Execute 0;
               LeaveWait 0; LeaveWait 1; Count 0; Count 1; Execute 0; Execute 1]
        (initial cap_2 2) = Some c /\
    inflight c = 3%nat /\
    numRequestsOutstanding_ (backend c) = 3 /\
    maxRequestsOutstanding (backend c) = 2.
Proof. eexists. repeat split. Qed.

(** Three writes issued by one thread: the third waits until a completion. *)
Example throttle_three_writes_one_thread :
  run false [LeaveWait 0; Count 0; Execute 0; LeaveWait 0; Count 0; Execute 0; LeaveWait 0]
      (initial cap_2 1) = None /\
  (inflight <$> run false [LeaveWait 0; Count 0; Execute 0; LeaveWait 0; Count 0; Execute 0;
                           Complete; LeaveWait 0; Count 0; Execute 0]
                  (initial cap_2 1)) = Some 2%nat.
Proof. split; reflexivity. Qed.

(** * Further properties *)

(** ** Binding in order *)

Section BindingInOrder.

Lemma bind_at_ok who errmsg index v st s t :
  statement_ st = Some s ->
  (index < length (stmt_params s))%nat ->
  stmt_types s !! index = Some t ->
  cass_value_is_valid t v = true ->
  bind_at who errmsg index v st
  = Ret (mkStatement
           (Some (mkCassStatement (stmt_query s) (stmt_types s)
                    (<[index := Some v]> (stmt_params s))))
           (S (curBindingIndex_ st))).
Proof.
  intros Hs Hlt Ht Hvalid. unfold bind_at, cass_statement_bind. rewrite Hs.
  rewrite bool_decide_eq_true_2 by done. by rewrite Ht, Hvalid.
Qed.

(** On a statement that is not null a bind returns, with the slot filled,
    or throws the [runtime_error] of the driver's refusal. *)
Lemma bind_at_cases who errmsg index v st s :
  statement_ st = Some s ->
  bind_at who errmsg index v st = Raise (runtime_error errmsg) \/
  (index < length (stmt_params s))%nat /\
  (exists t, stmt_types s !! index = Some t /\ cass_value_is_valid t v = true) /\
  bind_at who errmsg index v st
  = Ret (mkStatement
           (Some (mkCassStatement (stmt_query s) (stmt_types s)
                    (<[index := Some v]> (stmt_params s))))
           (S (curBindingIndex_ st))).
Proof.
  intros Hs. unfold bind_at, cass_statement_bind. rewrite Hs.
  case_bool_decide as Hlt; [|by left].
  destruct (stmt_types s !! index) as [t|]; [|by left].
  destruct (cass_value_is_valid t v) eqn:Hvalid; [|by left].
  right. split; [done|]. split; [by exists t|done].
Qed.

Lemma bind_call_current c st s :
  is_boolean_call c = false ->
  statement_ st = Some s ->
  exists who errmsg,
    bind_call c st = bind_at who errmsg (curBindingIndex_ st) (call_value c) st.
Proof.
  intros Hc Hs. destruct c; try done; simpl; eauto.
  unfold bindNextIntTuple. rewrite Hs. eauto.
Qed.

Lemma bind_calls_app calls1 calls2 st :
  bind_calls (calls1 ++ calls2) st = (st' ← bind_calls calls1 st; bind_calls calls2 st').
Proof.
  revert st. induction calls1 as [|c calls1 IH]; intros st; simpl; [done|].
  destruct (bind_call c st) as [st1| | |]; simpl; [apply IH|done..].
Qed.

(** Binds on a statement that is not null return or throw a
    [runtime_error]. *)
Lemma bind_calls_cases calls st s :
  Forall (fun c => is_boolean_call c = false) calls ->
  statement_ st = Some s ->
  (exists st', bind_calls calls st = Ret st') \/
  (exists what, bind_calls calls st = Raise (runtime_error what)).
Proof.
  intros Hcalls. revert st s.
  induction Hcalls as [|c calls Hc Hcalls IH]; intros st s Hs; simpl; [by eauto|].
  destruct (bind_call_current c st s Hc Hs) as (who & errmsg & ->).
  destruct (bind_at_cases who errmsg (curBindingIndex_ st) (call_value c) st s Hs)
    as [->|(_ & _ & ->)]; [by eauto|].
  change (mbind ?f (Ret ?x)) with (f x). by eapply IH.
Qed.

(** When they all return, there was a slot for each, of the type of its
    value. *)
Lemma bind_calls_Ret calls st s st' :
  Forall (fun c => is_boolean_call c = false) calls ->
  statement_ st = Some s ->
  bind_calls calls st = Ret st' ->
  (calls = [] \/ (curBindingIndex_ st + length calls <= length (stmt_params s))%nat) /\
  (forall i c t,
     calls !! i = Some c ->
     stmt_types s !! (curBindingIndex_ st + i)%nat = Some t ->
     cass_value_is_valid t (call_value c) = true).
Proof.
  intros Hcalls. revert st s.
  induction Hcalls as [|c calls Hc Hcalls IH]; intros st s Hs; simpl.
  - intros _. split; [by left|]. by intros i c t.
  - destruct (bind_call_current c st s Hc Hs) as (who & errmsg & ->).
    destruct (bind_at_cases who errmsg (curBindingIndex_ st) (call_value c) st s Hs)
      as [->|(Hlt & Hvalid & ->)]; [done|].
    change (mbind ?f (Ret ?x)) with (f x). intros Hrest. cbv beta in Hrest.
    match type of Hrest with
    | bind_calls _ ?st1 = _ => destruct (IH st1 _ eq_refl Hrest) as [Hlen Hrest']
    end.
    clear Hrest. rename Hrest' into Hrest. simpl in Hlen, Hrest.
    rewrite length_insert in Hlen. split.
    { right. destruct Hlen as [->|Hlen]; simpl; lia. }
    intros [|i] c' t Hc' Ht.
    + injection Hc' as <-. rewrite Nat.add_0_r in Ht.
      destruct Hvalid as (t' & Ht' & Hvalid). congruence.
    + apply (Hrest i c' t Hc'). rewrite <- Ht. f_equal. lia.
Qed.

Lemma bind_calls_fill query types done calls free :
  Forall (fun c => is_boolean_call c = false) calls ->
  (length calls <= free)%nat ->
  (forall i c,
     calls !! i = Some c ->
     exists t, types !! (length done + i)%nat = Some t /\
               cass_value_is_valid t (call_value c) = true) ->
  bind_calls calls
    (mkStatement (Some (mkCassStatement query types (done ++ replicate free None)))
                 (length done))
  = Ret (mkStatement
           (Some (mkCassStatement query types
                    (done ++ ((Some ∘ call_value) <$> calls)
                          ++ replicate (free - length calls) None)))
           (length done + length calls)).
Proof.
  intros Hcalls. revert done free.
  induction Hcalls as [|c calls Hc Hcalls IH]; intros done free Hlen Hvalid; simpl.
  - by rewrite Nat.sub_0_r, Nat.add_0_r.
  - destruct free as [|free]; [simpl in Hlen; lia|].
    match goal with
    | |- context [bind_call c ?st] =>
        destruct (bind_call_current c st _ Hc eq_refl) as (who & errmsg & ->)
    end.
    destruct (Hvalid 0%nat c eq_refl) as (t & Ht & Hv). rewrite Nat.add_0_r in Ht.
    erewrite bind_at_ok; [|done|simpl; rewrite length_app; simpl; lia|exact Ht|exact Hv].
    simpl. rewrite insert_app_r_alt, Nat.sub_diag by done. simpl.
    specialize (IH (done ++ [Some (call_value c)]) free).
    rewrite length_app, <- !(assoc_L (++)) in IH. simpl in IH.
    rewrite Nat.add_1_r in IH.
    change (mbind ?f (Ret ?x)) with (f x).
    rewrite IH.
    + do 2 f_equal. lia.
    + simpl in Hlen. lia.
    + intros i c' Hc'. destruct (Hvalid (S i) c' Hc') as (t' & Ht' & Hv').
      exists t'. split; [|done]. rewrite <- Ht'. f_equal. lia.
Qed.

(** X1.  On a fresh statement, binds other than [bindNextBoolean] that
    each hand the driver a value of the type of the parameter at their
    position all succeed: the [i]-th call fills slot [i] with its own
    value, the slots beyond stay unset, and [curBindingIndex_] ends at the
    number of calls.  A value of another type than its parameter makes the
    sequence throw a [runtime_error]. *)
Theorem bind_calls_fill_in_order (p : CassPrepared) (calls : list BindCall) :
  Forall (fun c => is_boolean_call c = false) calls ->
  ((forall i c, calls !! i = Some c ->
      exists t, prep_param_types p !! i = Some t /\
                cass_value_is_valid t (call_value c) = true) ->
   (fresh ← CassandraStatement_new (mkPrepared (Some p)); bind_calls calls fresh)
   = Ret (mkStatement
            (Some (mkCassStatement (prep_query p) (prep_param_types p)
                     (((Some ∘ call_value) <$> calls)
                      ++ replicate (prep_param_count p - length calls) None)))
            (length calls))) /\
  (forall i c t,
     calls !! i = Some c ->
     prep_param_types p !! i = Some t ->
     cass_value_is_valid t (call_value c) = false ->
     exists what,
       (fresh ← CassandraStatement_new (mkPrepared (Some p)); bind_calls calls fresh)
       = Raise (runtime_error what)).
Proof.
  intros Hcalls. simpl. unfold cass_prepared_bind.
  change (mbind ?f (Ret ?x)) with (f x). split.
  - intros Hvalid.
    assert (Hlen : (length calls <= prep_param_count p)%nat).
    { destruct (decide (length calls = 0)%nat) as [->|Hne]; [lia|].
      destruct (lookup_lt_is_Some_2 calls (length calls - 1)) as [c Hc]; [lia|].
      destruct (Hvalid _ _ Hc) as (t & Ht & _).
      apply lookup_lt_Some in Ht. unfold prep_param_count. lia. }
    exact (bind_calls_fill (prep_query p) (prep_param_types p) [] calls
             (prep_param_count p) Hcalls Hlen Hvalid).
  - intros i c t Hc Ht Hinvalid.
    match goal with
    | |- context [bind_calls calls ?st] =>
        destruct (bind_calls_cases calls st _ Hcalls eq_refl) as [[st' Hret]|Hraise];
        [|done];
        apply (bind_calls_Ret calls st _ st' Hcalls eq_refl) in Hret as [_ Hvalid]
    end.
    simpl in Hvalid. rewrite (Hvalid i c t Hc Ht) in Hinvalid. done.
Qed.

Lemma bind_calls_fill_in_order_witness :
  (fresh ← CassandraStatement_new
             (mkPrepared (Some (mkCassPrepared "INSERT"
                [CASS_VALUE_TYPE_BLOB; CASS_VALUE_TYPE_BIGINT; CASS_VALUE_TYPE_BLOB])));
   bind_calls [CallBytes ab; CallInt 7] fresh)
  = Ret (mkStatement
           (Some (mkCassStatement "INSERT"
                    [CASS_VALUE_TYPE_BLOB; CASS_VALUE_TYPE_BIGINT; CASS_VALUE_TYPE_BLOB]
                    [Some (CassBytes ab); Some (CassInt64 7); None]))
           2).
Proof.
  apply (bind_calls_fill_in_order
           (mkCassPrepared "INSERT"
              [CASS_VALUE_TYPE_BLOB; CASS_VALUE_TYPE_BIGINT; CASS_VALUE_TYPE_BLOB])
           [CallBytes ab; CallInt 7]).
  - repeat constructor.
  - intros [|[|i]] c Hc; simpl in Hc; [injection Hc as <-..|done]; by eexists.
Defined.

(** X2.  One bind more than the statement has parameters throws a
    [runtime_error], whatever is bound (booleans apart) and whatever
    follows. *)
Theorem bind_calls_overflow_throws (p : CassPrepared) (calls : list BindCall) :
  Forall (fun c => is_boolean_call c = false) calls ->
  (prep_param_count p < length calls)%nat ->
  exists what,
    (fresh ← CassandraStatement_new (mkPrepared (Some p)); bind_calls calls fresh)
    = Raise (runtime_error what).
Proof.
  intros Hcalls Hlen. simpl. unfold cass_prepared_bind.
  change (mbind ?f (Ret ?x)) with (f x).
  match goal with
  | |- context [bind_calls calls ?st] =>
      destruct (bind_calls_cases calls st _ Hcalls eq_refl) as [[st' Hret]|Hraise];
      [|done];
      apply (bind_calls_Ret calls st _ st' Hcalls eq_refl) in Hret as [[->|Hfit] _]
  end; [simpl in Hlen; lia|].
  simpl in Hfit. rewrite length_replicate in Hfit. lia.
Qed.

Lemma bind_calls_overflow_throws_witness :
  (fresh ← CassandraStatement_new
             (mkPrepared (Some (mkCassPrepared "SELECT" [CASS_VALUE_TYPE_BIGINT])));
   bind_calls [CallInt 7; CallInt 8; CallBytes ab] fresh)
  = Raise (runtime_error "Error binding int to statement").
Proof.
  destruct (bind_calls_overflow_throws (mkCassPrepared "SELECT" [CASS_VALUE_TYPE_BIGINT])
              [CallInt 7; CallInt 8; CallBytes ab]) as [what Hwhat].
  - repeat constructor.
  - unfold prep_param_count. simpl. lia.
  - reflexivity.
Defined.

End BindingInOrder.

(** ** Synchronous writes and the range statements *)

Section RangeStatements.

Lemma retry_until_ok_none stmt timedOut futs log :
  Forall (fun f => fut_error_code f <> CASS_OK) futs ->
  retry_until_ok stmt timedOut futs log = None.
Proof.
  intros Hall. revert timedOut log.
  induction Hall as [|f futs Hf Hall IH]; intros timedOut log; simpl; [done|].
  unfold is_ok. by rewrite bool_decide_eq_false_2.
Qed.

Lemma executeSyncWrite_app statement b pre fut post :
  pending (session_ b) = pre ++ fut :: post ->
  Forall (fun f => fut_error_code f <> CASS_OK) pre ->
  fut_error_code fut = CASS_OK ->
  executeSyncWrite statement b
  = Some (Ret tt,
          set_session
            (mkCassSession post
               (executed (session_ b) ++ replicate (S (length pre)) (get statement)))
            b).
Proof.
  intros Hp Hpre Hfut. unfold executeSyncWrite.
  by rewrite Hp, (retry_until_ok_app _ _ _ _ _ _ Hpre Hfut).
Qed.

(** X3.  [executeSyncWrite] executes the statement again after every
    failure, whatever the error code, and returns at the first OK, having
    executed the statement once per attempt and consumed nothing beyond;
    it never throws; while the driver answers no OK it does not return. *)
Theorem executeSyncWrite_retries_until_ok
    (statement : CassandraStatement) (b : CassandraBackend) :
  (forall pre fut post,
     pending (session_ b) = pre ++ fut :: post ->
     Forall (fun f => fut_error_code f <> CASS_OK) pre ->
     fut_error_code fut = CASS_OK ->
     exists b',
       executeSyncWrite statement b = Some (Ret tt, b') /\
       pending (session_ b') = post /\
       executed (session_ b')
       = executed (session_ b) ++ replicate (S (length pre)) (get statement) /\
       range b' = range b /\
       numRequestsOutstanding_ b' = numRequestsOutstanding_ b) /\
  (Forall (fun f => fut_error_code f <> CASS_OK) (pending (session_ b)) ->
     executeSyncWrite statement b = None) /\
  (forall r b', executeSyncWrite statement b = Some (r, b') -> r = Ret tt).
Proof.
  split; [|split].
  - intros pre fut post Hp Hpre Hfut. eexists.
    split; [exact (executeSyncWrite_app _ _ _ _ _ Hp Hpre Hfut)|]. by simpl.
  - intros Hall. unfold executeSyncWrite. by rewrite retry_until_ok_none.
  - intros r b'. unfold executeSyncWrite.
    destruct (retry_until_ok _ _ _ _) as [[[? ?] ?]|]; [|done]. by intros [= <- _].
Qed.

Lemma executeSyncWrite_retries_until_ok_witness :
  let b := idle_backend [mkCassFuture CASS_ERROR_SERVER_WRITE_TIMEOUT [];
                         mkCassFuture CASS_ERROR_LIB_BAD_PARAMS [];
                         mkCassFuture CASS_OK [];
                         mkCassFuture CASS_OK []] in
  exists b',
    executeSyncWrite (mkStatement None 0) b = Some (Ret tt, b') /\
    pending (session_ b') = [mkCassFuture CASS_OK []] /\
    executed (session_ b') = [None; None; None].
Proof.
  intros b.
  destruct (proj1 (executeSyncWrite_retries_until_ok (mkStatement None 0) b)
              [mkCassFuture CASS_ERROR_SERVER_WRITE_TIMEOUT [];
               mkCassFuture CASS_ERROR_LIB_BAD_PARAMS []]
              (mkCassFuture CASS_OK []) [mkCassFuture CASS_OK []])
    as (b' & Heq & Hp & He & _).
  - reflexivity.
  - repeat constructor; discriminate.
  - reflexivity.
  - exists b'. by repeat split.
Defined.

Lemma executeSyncUpdate_app statement b pre fut post :
  pending (session_ b) = pre ++ fut :: post ->
  Forall (fun f => fut_error_code f <> CASS_OK) pre ->
  fut_error_code fut = CASS_OK ->
  exists r,
    executeSyncUpdate statement b
    = Some (Ret r,
            set_session
              (mkCassSession post
                 (executed (session_ b) ++ replicate (S (length pre)) (get statement)))
              b) /\
    (pre = [] -> cass_result_first_row (fut_rows fut) = Some [CassBool false] ->
     r = false).
Proof.
  intros Hp Hpre Hfut. unfold executeSyncUpdate.
  rewrite Hp, (retry_until_ok_app _ _ _ _ _ _ Hpre Hfut). simpl.
  destruct (cass_result_first_row (fut_rows fut)) as [row|]; [|by eexists].
  destruct (cass_value_get_bool (cass_row_get_column row 0)) as [rc success] eqn:Hget.
  destruct (is_ok rc); [|by eexists].
  eexists. split; [done|].
  intros -> [= ->]. simpl in Hget. by injection Hget as _ <-.
Qed.

Lemma rangeStatement_three query sequence is_latest expected :
  rangeStatement (mkPrepared (Some (mkCassPrepared query range_param_types)))
    sequence is_latest expected
  = Ret (mkStatement (ledgerRangeStatement query sequence is_latest expected) 3).
Proof. reflexivity. Qed.

(** X4.  The first ledger ever (empty in-memory range, nothing
    outstanding, a range statement of a bigint, a boolean and a bigint):
    [doFinishWrites] executes the insert
    [(ledgerSequence_, false, ledgerSequence_)] until it is OK, then the
    conditional update [(ledgerSequence_, true, ledgerSequence_ - 1)] until
    it is OK.  When that update answers "not applied" at its first attempt
    the call returns false, and the insert has been executed all the
    same. *)
Theorem doFinishWrites_first_ledger (b : CassandraBackend) (query : string)
    (pre1 : list CassFuture) (f1 : CassFuture)
    (pre2 : list CassFuture) (f2 : CassFuture) (post : list CassFuture) :
  range b = None ->
  numRequestsOutstanding_ b = 0 ->
  updateLedgerRange_ b = mkPrepared (Some (mkCassPrepared query range_param_types)) ->
  pending (session_ b) = pre1 ++ f1 :: pre2 ++ f2 :: post ->
  Forall (fun f => fut_error_code f <> CASS_OK) pre1 ->
  fut_error_code f1 = CASS_OK ->
  Forall (fun f => fut_error_code f <> CASS_OK) pre2 ->
  fut_error_code f2 = CASS_OK ->
  exists r b',
    doFinishWrites b = Some (Ret r, b') /\
    range b' = None /\
    pending (session_ b') = post /\
    executed (session_ b')
    = executed (session_ b)
      ++ replicate (S (length pre1))
           (ledgerRangeStatement query (ledgerSequence_ b) false (ledgerSequence_ b))
      ++ replicate (S (length pre2))
           (ledgerRangeStatement query (ledgerSequence_ b) true
              (wrap32 (ledgerSequence_ b - 1))) /\
    (pre2 = [] -> cass_result_first_row (fut_rows f2) = Some [CassBool false] ->
     r = false).
Proof.
  intros Hrange Hzero Hprep Hp Hpre1 Hf1 Hpre2 Hf2.
  unfold doFinishWrites, mbind, M_mbind, M_bind, sync, wait, finishedAllRequests, lift.
  rewrite bool_decide_eq_true_2 by done.
  rewrite Hrange, Hprep, !rangeStatement_three.
  rewrite (executeSyncWrite_app _ b pre1 f1 (pre2 ++ f2 :: post) Hp Hpre1 Hf1).
  match goal with
  | |- context [executeSyncUpdate ?st ?b1] =>
      destruct (executeSyncUpdate_app st b1 pre2 f2 post eq_refl Hpre2 Hf2)
        as (r & -> & Hr)
  end.
  exists r. eexists. split; [by destruct r|].
  simpl. rewrite Hrange, <- (assoc_L (++)). by repeat split.
Qed.

Lemma doFinishWrites_first_ledger_witness :
  let b := idle_backend [mkCassFuture CASS_ERROR_SERVER_OVERLOADED [];
                         mkCassFuture CASS_OK [];
                         mkCassFuture CASS_OK [[CassBool false]]] in
  exists b',
    doFinishWrites b = Some (Ret false, b') /\
    range b' = None /\
    executed (session_ b')
    = [ledgerRangeStatement "UPDATE ledger_range" 5 false 5;
       ledgerRangeStatement "UPDATE ledger_range" 5 false 5;
       ledgerRangeStatement "UPDATE ledger_range" 5 true 4].
Proof.
  intros b.
  destruct (doFinishWrites_first_ledger b "UPDATE ledger_range"
              [mkCassFuture CASS_ERROR_SERVER_OVERLOADED []] (mkCassFuture CASS_OK [])
              [] (mkCassFuture CASS_OK [[CassBool false]]) [])
    as (r & b' & Heq & Hrange & _ & Hexec & Hr); try reflexivity.
  - repeat constructor. discriminate.
  - constructor.
  - exists b'. rewrite Heq, (Hr eq_refl eq_refl). by repeat split.
Defined.



End RangeStatements.

(** ** The counter, the barrier and the wait *)

Section CounterMore.

Context (NDEBUG : bool).

Lemma cv_wait_counter pred periods b b' :
  0 <= numRequestsOutstanding_ b < 2 ^ 32 ->
  cv_wait pred periods b = Some b' ->
  0 <= numRequestsOutstanding_ b' <= numRequestsOutstanding_ b /\
  maxRequestsOutstanding b' = maxRequestsOutstanding b.
Proof.
  revert b. induction periods as [|n periods IH]; intros b Hr; simpl; [done|].
  pose proof (completeRequests_counter n (set_completions periods b) Hr) as Hn.
  destruct (completeRequests_counter_only n (set_completions periods b)) as [m Hm].
  simpl in Hn.
  destruct (pred _) eqn:Hpred.
  - intros [= <-]. rewrite Hn. split; [lia|]. by rewrite Hm.
  - intros H. apply IH in H as [H Hmax]; [|lia].
    rewrite Hn in H. split; [lia|]. by rewrite Hmax, Hm.
Qed.

(** A blocked admission comes back exactly when the driver completes
    enough requests to bring the counter below the cap. *)
Lemma cv_wait_admission_returns periods b :
  0 < maxRequestsOutstanding b <= numRequestsOutstanding_ b ->
  numRequestsOutstanding_ b < 2 ^ 32 ->
  numRequestsOutstanding_ b - Z.of_nat (sum_list periods) < maxRequestsOutstanding b ->
  exists b', cv_wait canAddRequest periods b = Some b'.
Proof.
  revert b. induction periods as [|n periods IH]; intros b Hcap Hr Hsum; simpl in *; [lia|].
  pose proof (completeRequests_counter n (set_completions periods b)) as Hn.
  destruct (completeRequests_counter_only n (set_completions periods b)) as [m Hm].
  simpl in Hn. specialize (Hn ltac:(lia)).
  assert (Hmax : maxRequestsOutstanding (Nat.iter n completeRequest (set_completions periods b))
                 = maxRequestsOutstanding b) by (by rewrite Hm).
  destruct (canAddRequest _) eqn:Hpred; [by eexists|].
  apply bool_decide_eq_false in Hpred. rewrite Hn, Hmax in Hpred.
  apply IH; rewrite ?Hn, ?Hmax; lia.
Qed.

Lemma cv_wait_admission_blocked periods b :
  0 <= numRequestsOutstanding_ b < 2 ^ 32 ->
  maxRequestsOutstanding b <= numRequestsOutstanding_ b - Z.of_nat (sum_list periods) ->
  cv_wait canAddRequest periods b = None.
Proof.
  revert b. induction periods as [|n periods IH]; intros b Hr Hsum; simpl in *; [done|].
  pose proof (completeRequests_counter n (set_completions periods b) Hr) as Hn.
  destruct (completeRequests_counter_only n (set_completions periods b)) as [m Hm].
  simpl in Hn.
  assert (Hmax : maxRequestsOutstanding (Nat.iter n completeRequest (set_completions periods b))
                 = maxRequestsOutstanding b) by (by rewrite Hm).
  unfold canAddRequest at 1. rewrite Hn, Hmax.
  rewrite bool_decide_eq_false_2 by lia.
  apply IH; rewrite ?Hn, ?Hmax; lia.
Qed.

(** X7.  Below the cap the one-caller admission returns at once with the
    counter one higher, at most the cap and not wrapped; the completion
    that follows restores the backend exactly, and signals the sync
    condition variable exactly when nothing else was outstanding.  At the
    cap, or above it, the admission blocks: it comes back exactly when the
    driver completes enough requests to bring the counter below the cap,
    and then after at least one period of waiting and with the counter
    within the cap. *)
Theorem admission_then_completion (b : CassandraBackend) :
  (0 <= numRequestsOutstanding_ b < maxRequestsOutstanding b ->
   maxRequestsOutstanding b < 2 ^ 32 ->
   exists b1,
     incremementOutstandingRequestCount b = Some (Ret tt, b1) /\
     numRequestsOutstanding_ b1 = numRequestsOutstanding_ b + 1 /\
     numRequestsOutstanding_ b1 <= maxRequestsOutstanding b /\
     decrementOutstandingRequestCount NDEBUG b1
     = Ret (b, notify_throttleCv ::
               (if bool_decide (numRequestsOutstanding_ b = 0)
                then [notify_syncCv] else []))) /\
  (0 < maxRequestsOutstanding b <= numRequestsOutstanding_ b ->
   numRequestsOutstanding_ b < 2 ^ 32 ->
   ((exists b1, incremementOutstandingRequestCount b = Some (Ret tt, b1)) <->
    numRequestsOutstanding_ b - Z.of_nat (sum_list (completions b))
    < maxRequestsOutstanding b) /\
   (forall r b1,
      incremementOutstandingRequestCount b = Some (r, b1) ->
      r = Ret tt /\
      0 < numRequestsOutstanding_ b1 <= maxRequestsOutstanding b /\
      (length (completions b1) < length (completions b))%nat)).
Proof.
  unfold incremementOutstandingRequestCount, wait, canAddRequest. split.
  - intros Hn Hcap. rewrite bool_decide_eq_true_2 by lia.
    eexists. split; [done|].
    assert (Hw : wrap32 (numRequestsOutstanding_ b + 1) = numRequestsOutstanding_ b + 1).
    { unfold wrap32. apply Z.mod_small. lia. }
    unfold incrementCounter. rewrite Hw. simpl.
    split; [done|]. split; [lia|].
    unfold decrementOutstandingRequestCount. simpl.
    rewrite bool_decide_eq_false_2 by lia.
    replace (numRequestsOutstanding_ b + 1 - 1) with (numRequestsOutstanding_ b) by lia.
    assert (Hw' : wrap32 (numRequestsOutstanding_ b) = numRequestsOutstanding_ b).
    { unfold wrap32. apply Z.mod_small. lia. }
    rewrite Hw'. do 2 f_equal. by destruct b.
  - intros Hcap Hr. rewrite bool_decide_eq_false_2 by lia.
    fold canAddRequest. split; [split|].
    + intros [b1 Hret].
      destruct (decide (numRequestsOutstanding_ b - Z.of_nat (sum_list (completions b))
                        < maxRequestsOutstanding b)) as [|Hge]; [done|].
      rewrite cv_wait_admission_blocked in Hret by lia. done.
    + intros Hsum.
      destruct (cv_wait_admission_returns (completions b) b) as [b' ->]; [lia..|].
      by eexists.
    + intros r b1.
      destruct (cv_wait canAddRequest (completions b) b) as [b'|] eqn:Hw; [|done].
      intros [= <- <-].
      pose proof (cv_wait_counter canAddRequest (completions b) b b' ltac:(lia) Hw)
        as [Hc Hmax].
      apply cv_wait_inv in Hw as (Hp & m & rest & Heq & Hlen).
      apply bool_decide_eq_true in Hp. rewrite Hmax in Hp.
      split; [done|]. unfold incrementCounter. simpl.
      unfold wrap32. rewrite Z.mod_small by lia.
      split; [lia|]. by rewrite Heq.
Qed.


(** X8.  The barrier is sound, for any number of calling threads: in
    every state the throttle can reach, [finishedAllRequests()] holds
    exactly when no request is in flight and no thread stands between its
    increment and the hand-over to the driver. *)
Theorem sync_barrier_sound (b : CassandraBackend) (k : nat)
    (acts : list action) (c : config) :
  0 <= maxRequestsOutstanding b ->
  maxRequestsOutstanding b + Z.of_nat k <= 2 ^ 32 ->
  run NDEBUG acts (initial b k) = Some c ->
  (finishedAllRequests (backend c) = true <->
   inflight c = 0%nat /\ count_pc Counted (threads c) = 0%nat).
Proof.
  intros Hcap Hk Hrun.
  destruct (run_preserves NDEBUG k _ acts _ c Hcap Hk (initial_inv b k Hcap) Hrun)
    as (_ & _ & Hcnt & _).
  unfold finishedAllRequests. rewrite bool_decide_eq_true. lia.
Qed.


Lemma no_completion_counter_grows k cap acts c c' :
  0 <= cap -> cap + Z.of_nat k <= 2 ^ 32 ->
  throttle_inv k cap c ->
  Complete ∉ acts ->
  run NDEBUG acts c = Some c' ->
  numRequestsOutstanding_ (backend c) <= numRequestsOutstanding_ (backend c').
Proof.
  intros Hcap Hk. revert c.
  induction acts as [|a acts IH]; intros c Hinv Hnot; simpl.
  - intros [= <-]. lia.
  - destruct (step NDEBUG a c) as [c1|] eqn:Hstep; [|done].
    intros Hrun.
    assert (Hinv1 : throttle_inv k cap c1) by (by eapply step_preserves).
    apply not_elem_of_cons in Hnot as [Hne Hnot].
    specialize (IH c1 Hinv1 Hnot Hrun).
    assert (numRequestsOutstanding_ (backend c) <= numRequestsOutstanding_ (backend c1));
      [|lia].
    destruct Hinv as (Hlen & _ & Hcnt & Hbound).
    pose proof (count_pc_le PastWait (threads c)) as HleA.
    destruct a as [t|t|t|]; simpl in Hstep; [| | |done].
    + destruct (_ && _); [|done]. injection Hstep as <-. simpl. lia.
    + unfold at_pc in Hstep. case_bool_decide as Hpc; [|done].
      injection Hstep as <-. simpl.
      pose proof (count_pc_insert PastWait _ t PastWait Counted Hpc) as HA.
      repeat case_decide; try done.
      unfold wrap32. rewrite Z.mod_small by lia. lia.
    + destruct (at_pc c t Counted); [|done]. injection Hstep as <-. simpl. lia.
Qed.

(** X10.  A blocked admission proceeds only after a completion: from a
    reachable state in which [canAddRequest()] is false, whatever the
    calling threads do, [canAddRequest()] is true again only if a request
    has completed in between. *)
Theorem blocked_until_completion (b : CassandraBackend) (k : nat)
    (before after : list action) (c c' : config) :
  0 <= maxRequestsOutstanding b ->
  maxRequestsOutstanding b + Z.of_nat k <= 2 ^ 32 ->
  run NDEBUG before (initial b k) = Some c ->
  canAddRequest (backend c) = false ->
  run NDEBUG after c = Some c' ->
  canAddRequest (backend c') = true ->
  Complete ∈ after.
Proof.
  intros Hcap Hk Hrun Hblocked Hrun' Hfree.
  destruct (decide (Complete ∈ after)) as [|Hnot]; [done|exfalso].
  pose proof (run_preserves NDEBUG k _ before _ c Hcap Hk (initial_inv b k Hcap) Hrun)
    as Hinv.
  pose proof (run_preserves NDEBUG k _ after _ c' Hcap Hk Hinv Hrun') as Hinv'.
  pose proof (no_completion_counter_grows k _ after c c' Hcap Hk Hinv Hnot Hrun') as Hle.
  destruct Hinv as (_ & Hmax & _). destruct Hinv' as (_ & Hmax' & _).
  unfold canAddRequest in *.
  apply bool_decide_eq_false in Hblocked. apply bool_decide_eq_true in Hfree. lia.
Qed.


End CounterMore.

Lemma admission_then_completion_witness :
  let b := idle_backend [] in
  let at_cap := set_completions [0; 1]%nat (set_numRequestsOutstanding 2 cap_2) in
  (exists b1,
     incremementOutstandingRequestCount b = Some (Ret tt, b1) /\
     decrementOutstandingRequestCount false b1
     = Ret (b, [notify_throttleCv; notify_syncCv])) /\
  (exists b1,
     incremementOutstandingRequestCount at_cap = Some (Ret tt, b1) /\
     0 < numRequestsOutstanding_ b1 <= 2).
Proof.
  intros b at_cap. split.
  - destruct (proj1 (admission_then_completion false b)) as (b1 & Hinc & _ & _ & Hdec);
      [simpl; lia | simpl; lia |].
    exists b1. split; [exact Hinc | exact Hdec].
  - destruct (proj2 (admission_then_completion false at_cap)) as [Hiff Hret];
      [simpl; lia | simpl; lia |].
    destruct (proj2 Hiff) as [b1 Hinc]; [simpl; lia|].
    exists b1. split; [exact Hinc|].
    by destruct (Hret _ _ Hinc) as (_ & Hc & _).
Defined.

Lemma sync_barrier_sound_witness :
  let c := mkConfig (set_numRequestsOutstanding 2 cap_2) [Idle; Counted] 1 in
  run false [LeaveWait 0; Count 0; Execute 0; LeaveWait 1; Count 1] (initial cap_2 2)
  = Some c /\
  (finishedAllRequests (backend c) = true <->
   inflight c = 0%nat /\ count_pc Counted (threads c) = 0%nat).
Proof.
  intros c. split; [reflexivity|].
  apply (sync_barrier_sound false cap_2 2
           [LeaveWait 0; Count 0; Execute 0; LeaveWait 1; Count 1] c);
    [simpl; lia | simpl; lia | reflexivity].
Defined.

Lemma blocked_until_completion_witness :
  Complete ∈ [Complete; LeaveWait 0].
Proof.
  apply (blocked_until_completion false cap_2 1
           [LeaveWait 0; Count 0; Execute 0; LeaveWait 0; Count 0; Execute 0]
           [Complete; LeaveWait 0]
           (mkConfig (set_numRequestsOutstanding 2 cap_2) [Idle] 2)
           (mkConfig (set_numRequestsOutstanding 1 cap_2) [PastWait] 1));
    (simpl; lia) || reflexivity.
Defined.

(** ** The range read never hands a timeout on *)

Section NoTimeout.

Lemma hardFetchLedgerRangeNoThrow_from_inv calls script r n :
  hardFetchLedgerRangeNoThrow_from calls script = Some (r, n) ->
  exists m,
    n = (calls + S m)%nat /\
    take m script = replicate m (Raise DatabaseTimeout) /\
    script !! m = Some r /\
    r <> Raise DatabaseTimeout.
Proof.
  revert calls. induction script as [|x script IH]; intros calls; simpl; [done|].
  destruct x as [a|[|what]| |].
  - intros [= <- <-]. exists 0%nat. repeat split; [lia|done].
  - intros H. apply IH in H as (m & -> & Htake & Hm & Hr).
    exists (S m). simpl. rewrite Htake. repeat split; [lia|done..].
  - intros [= <- <-]. exists 0%nat. repeat split; [lia|done].
  - intros [= <- <-]. exists 0%nat. repeat split; [lia|done].
  - intros [= <- <-]. exists 0%nat. repeat split; [lia|done].
Qed.

(** X11.  Whatever [hardFetchLedgerRange] does, when
    [hardFetchLedgerRangeNoThrow] comes back it is never with a
    [DatabaseTimeout]: it comes back with the outcome of the first call
    that did not time out, after exactly as many calls as that took. *)
Theorem hardFetchLedgerRangeNoThrow_never_times_out
    (script : list (outcome (option LedgerRange)))
    (r : outcome (option LedgerRange)) (n : nat) :
  hardFetchLedgerRangeNoThrow script = Some (r, n) ->
  r <> Raise DatabaseTimeout /\
  (1 <= n <= length script)%nat /\
  take (n - 1) script = replicate (n - 1) (Raise DatabaseTimeout) /\
  script !! (n - 1)%nat = Some r.
Proof.
  intros H. apply hardFetchLedgerRangeNoThrow_from_inv in H as (m & -> & Htake & Hm & Hr).
  simpl. rewrite Nat.sub_0_r. apply lookup_lt_Some in Hm as Hlt.
  repeat split; [done|lia|lia|done..].
Qed.

Lemma hardFetchLedgerRangeNoThrow_never_times_out_witness :
  hardFetchLedgerRangeNoThrow
    [Raise DatabaseTimeout; Raise (runtime_error "no rows"); Raise DatabaseTimeout]
  = Some (Raise (runtime_error "no rows"), 2%nat) /\
  Raise (runtime_error "no rows") <> (Raise DatabaseTimeout : outcome (option LedgerRange)).
Proof.
  split; [reflexivity|].
  apply (hardFetchLedgerRangeNoThrow_never_times_out
           [Raise DatabaseTimeout; Raise (runtime_error "no rows"); Raise DatabaseTimeout]
           _ 2 eq_refl).
Defined.

End NoTimeout.

(** ** The batch read and the store *)

Section BatchAndStore.

Context (rp : ReadPath).

Lemma lookupCache_misses keys sequence :
  (lookupCache rp keys sequence).2 = missed rp sequence keys.
Proof.
  unfold missed. induction keys as [|key keys IH]; simpl; [done|].
  destruct (lookupCache rp keys sequence) as [results misses]. simpl in IH.
  rewrite filter_cons.
  destruct (cache_get rp key sequence) as [obj|] eqn:Hget; simpl.
  - done.
  - by rewrite IH.
Qed.

Lemma lookupCache_results keys sequence :
  (lookupCache rp keys sequence).1
  = (fun key => blob_of (cache_get rp key sequence)) <$> keys.
Proof.
  induction keys as [|key keys IH]; simpl; [done|].
  destruct (lookupCache rp keys sequence) as [results misses]. simpl in IH.
  destruct (cache_get rp key sequence) as [obj|]; simpl; by rewrite IH.
Qed.

Lemma missed_all_hits keys sequence :
  Forall (fun key => is_Some (cache_get rp key sequence)) keys ->
  missed rp sequence keys = [].
Proof.
  unfold missed. induction 1 as [|key keys [obj Hobj] Hall IH]; [done|].
  rewrite filter_cons, decide_False by congruence. done.
Qed.

(** X12.  When every key is a cache hit, [fetchLedgerObjects] returns the
    cached blobs in the order of the keys and never asks the store: the
    result is the same whatever the store would answer.  In particular no
    keys give no blobs. *)
Theorem fetchLedgerObjects_all_hits (keys : list uint256) (sequence : uint32) :
  Forall (fun key => is_Some (cache_get rp key sequence)) keys ->
  forall store1 store2 store3,
    fetchLedgerObjects
      (mkReadPath (cache_get rp) (cache_getSuccessor rp) store1 store2 store3)
      keys sequence
    = Ret ((fun key => blob_of (cache_get rp key sequence)) <$> keys).
Proof.
  intros Hall store1 store2 store3. unfold fetchLedgerObjects.
  set (rp' := mkReadPath _ _ _ _ _).
  pose proof (lookupCache_misses keys sequence) as Hm.
  pose proof (lookupCache_results keys sequence) as Hr.
  assert (Heq : lookupCache rp' keys sequence = lookupCache rp keys sequence).
  { clear. induction keys as [|key keys IH]; simpl; [done|]. by rewrite IH. }
  rewrite Heq.
  destruct (lookupCache rp keys sequence) as [results misses]. simpl in *.
  subst. by rewrite (missed_all_hits keys sequence Hall).
Qed.

(** X13.  The store is asked for the keys the cache misses, in the order
    of the keys, and for nothing else: two stores that give the same blobs
    for that list give the same batch, over the same cache. *)
Theorem fetchLedgerObjects_store_sees_misses (keys : list uint256) (sequence : uint32)
    (point1 point2 : uint256 -> uint32 -> option Blob)
    (batch1 batch2 : list uint256 -> uint32 -> list Blob)
    (succ1 succ2 : uint256 -> uint32 -> option uint256) :
  batch1 (missed rp sequence keys) sequence = batch2 (missed rp sequence keys) sequence ->
  fetchLedgerObjects
    (mkReadPath (cache_get rp) (cache_getSuccessor rp) point1 batch1 succ1) keys sequence
  = fetchLedgerObjects
      (mkReadPath (cache_get rp) (cache_getSuccessor rp) point2 batch2 succ2) keys sequence.
Proof.
  intros Hbatch. unfold fetchLedgerObjects.
  set (rp1 := mkReadPath _ _ point1 _ _). set (rp2 := mkReadPath _ _ point2 _ _).
  assert (H1 : lookupCache rp1 keys sequence = lookupCache rp keys sequence).
  { clear. induction keys as [|key keys IH]; simpl; [done|]. by rewrite IH. }
  assert (H2 : lookupCache rp2 keys sequence = lookupCache rp keys sequence).
  { clear. induction keys as [|key keys IH]; simpl; [done|]. by rewrite IH. }
  rewrite H1, H2.
  pose proof (lookupCache_misses keys sequence) as Hm.
  destruct (lookupCache rp keys sequence) as [results misses]. simpl in *.
  destruct misses as [|m misses]; [done|]. simpl. by rewrite Hm, Hbatch.
Qed.

Lemma fillMisses_short results objs j :
  (j <= length objs)%nat ->
  (length objs < j + length (filter (fun r => r = []) results))%nat ->
  fillMisses results objs j = Undefined.
Proof.
  revert j. induction results as [|r results IH]; intros j Hj Hshort; simpl.
  - simpl in Hshort. lia.
  - rewrite filter_cons in Hshort. destruct r as [|byte r]; simpl.
    + rewrite decide_True in Hshort by done. rewrite length_cons in Hshort.
      destruct (objs !! j) as [obj|] eqn:Hobj; [|done].
      apply lookup_lt_Some in Hobj. rewrite IH; [done|lia|].
      rewrite Nat.add_succ_l, <- Nat.add_succ_r. exact Hshort.
    + rewrite decide_False in Hshort by done. by rewrite IH.
Qed.

Lemma lookupCache_empty_slots keys sequence :
  (length (lookupCache rp keys sequence).2
   <= length (filter (fun r => r = []) (lookupCache rp keys sequence).1))%nat.
Proof.
  induction keys as [|key keys IH]; simpl; [done|].
  destruct (lookupCache rp keys sequence) as [results misses]. cbn [fst snd] in IH.
  destruct (cache_get rp key sequence) as [obj|]; cbn [fst snd]; rewrite filter_cons;
    unfold Blob in *.
  - case_decide; rewrite ?length_cons; lia.
  - rewrite decide_True by done. rewrite !length_cons. lia.
Qed.

(** X14.  [fetchLedgerObjects] relies on the store for one blob per
    missed key: when the store returns fewer, the second loop reads past
    the end of what it returned.  When the call does return, it returns
    exactly one blob per key, whatever the cache and the store do. *)
Theorem fetchLedgerObjects_needs_full_batch (keys : list uint256) (sequence : uint32) :
  ((length (doFetchLedgerObjects rp (missed rp sequence keys) sequence)
    < length (missed rp sequence keys))%nat ->
   fetchLedgerObjects rp keys sequence = Undefined) /\
  (forall results, fetchLedgerObjects rp keys sequence = Ret results ->
     length results = length keys).
Proof.
  split; [|apply fetchLedgerObjects_length].
  intros Hshort. unfold fetchLedgerObjects.
  pose proof (lookupCache_misses keys sequence) as Hm.
  pose proof (lookupCache_empty_slots keys sequence) as He.
  destruct (lookupCache rp keys sequence) as [results misses]. simpl in *.
  rewrite <- Hm in Hshort.
  destruct misses as [|m misses]; [simpl in Hshort; lia|].
  apply fillMisses_short; lia.
Qed.

End BatchAndStore.

Lemma fetchLedgerObjects_all_hits_witness :
  fetchLedgerObjects (read_path [(1, ab); (2, [])] [(1, []); (3, ab)]) [2; 1; 1] 10
  = Ret [[]; ab; ab].
Proof.
  apply (fetchLedgerObjects_all_hits (read_path [(1, ab); (2, [])] []) [2; 1; 1] 10).
  repeat constructor; by eexists.
Defined.

Lemma fetchLedgerObjects_store_sees_misses_witness :
  fetchLedgerObjects (read_path [(1, ab)] [(2, ab)]) [1; 2] 10
  = fetchLedgerObjects
      (mkReadPath (cache_get (read_path [(1, ab)] []))
                  (cache_getSuccessor (read_path [(1, ab)] []))
                  (fun _ _ => None) (fun misses _ => (fun _ => ab) <$> misses)
                  (fun _ _ => None))
      [1; 2] 10.
Proof.
  apply (fetchLedgerObjects_store_sees_misses (read_path [(1, ab)] []) [1; 2] 10).
  reflexivity.
Defined.

Lemma fetchLedgerObjects_needs_full_batch_witness :
  fetchLedgerObjects
    (mkReadPath (fun _ _ => None) (fun _ _ => None) (fun _ _ => None)
                (fun _ _ => [ab]) (fun _ _ => None))
    [1; 2] 10
  = Undefined.
Proof.
  apply (proj1 (fetchLedgerObjects_needs_full_batch _ [1; 2] 10)).
  simpl. lia.
Defined.

(** ** Pages, cursors and the successor object *)

Section PagesMore.

Context (rp : ReadPath).

Lemma collectKeys_successors turns cursor ledgerSequence limit keys0 :
  (length keys0 <= limit)%nat ->
  (limit <= length keys0 + turns)%nat ->
  collectKeys rp turns cursor ledgerSequence limit keys0
  = keys0 ++ successors rp ledgerSequence (limit - length keys0)
               (default (default firstKey cursor) (last keys0)).
Proof.
  revert keys0. induction turns as [|turns IH]; intros keys0 Hle Hturns; simpl.
  - replace (limit - length keys0)%nat with 0%nat by lia. simpl. by rewrite app_nil_r.
  - case_bool_decide as Hlt.
    + destruct (limit - length keys0)%nat as [|m] eqn:Hm; [lia|]. simpl.
      assert (Hcur : match last keys0 with
                     | Some back => back
                     | None => match cursor with Some c => c | None => firstKey end
                     end = default (default firstKey cursor) (last keys0)).
      { by destruct (last keys0), cursor. }
      rewrite Hcur.
      destruct (fetchSuccessorKey rp _ ledgerSequence) as [succ|]; [|by rewrite app_nil_r].
      rewrite IH by (rewrite length_app; simpl; lia).
      rewrite last_snoc, length_app, <- (assoc_L (++)). simpl.
      replace (limit - (length keys0 + 1))%nat with m by lia. done.
    + replace (limit - length keys0)%nat with 0%nat by lia. simpl. by rewrite app_nil_r.
Qed.

Lemma successors_length ledgerSequence n start :
  (length (successors rp ledgerSequence n start) <= n)%nat.
Proof.
  revert start. induction n as [|n IH]; intros start; simpl; [done|].
  destruct (fetchSuccessorKey rp start ledgerSequence) as [succ|]; simpl; [|lia].
  specialize (IH succ). lia.
Qed.

Lemma successors_add ledgerSequence n m start :
  length (successors rp ledgerSequence n start) = n ->
  successors rp ledgerSequence (n + m) start
  = successors rp ledgerSequence n start
    ++ successors rp ledgerSequence m
         (default start (last (successors rp ledgerSequence n start))).
Proof.
  revert start. induction n as [|n IH]; intros start; simpl; [done|].
  destruct (fetchSuccessorKey rp start ledgerSequence) as [succ|]; simpl; [|done].
  intros [= Hlen]. rewrite (IH succ Hlen). f_equal. f_equal.
  rewrite last_cons. by destruct (last (successors rp ledgerSequence n succ)).
Qed.

Lemma zip_with_object_at ledgerSequence keys :
  zip_with mkLedgerObject keys
    ((fun key => blob_of (fetchLedgerObject rp key ledgerSequence)) <$> keys)
  = object_at rp ledgerSequence <$> keys.
Proof.
  induction keys as [|key keys IH]; [done|].
  cbn [fmap list_fmap zip_with]. f_equal. exact IH.
Qed.

(** With a cache without empty blobs and a store whose batch agrees with
    its point read, the page is the list of the successors with their
    objects. *)
Lemma fetchLedgerPage_explicit NDEBUG cursor ledgerSequence limit :
  cache_hits_nonempty rp ledgerSequence ->
  batch_agrees rp ledgerSequence ->
  (1 <= limit)%nat ->
  fetchLedgerPage rp NDEBUG cursor ledgerSequence limit
  = let keys := successors rp ledgerSequence limit (default firstKey cursor) in
    _ ← assert NDEBUG
          (forallb (fun object => negb (blob_empty object))
             ((fun key => blob_of (fetchLedgerObject rp key ledgerSequence)) <$> keys));
    Ret (mkLedgerPage (object_at rp ledgerSequence <$> keys)
           (if bool_decide (limit <= length keys)%nat then last keys else None)).
Proof.
  intros Hhit Hbatch Hlimit. unfold fetchLedgerPage.
  rewrite collectKeys_successors by (simpl; lia).
  simpl. rewrite Nat.sub_0_r.
  set (keys := successors rp ledgerSequence limit (default firstKey cursor)).
  rewrite (fetchLedgerObjects_map rp keys ledgerSequence Hhit Hbatch).
  cbn [mbind outcome_mbind outcome_bind].
  rewrite pushObjects_spec by (by rewrite drop_0, length_fmap).
  rewrite drop_0. cbn [app]. rewrite zip_with_object_at.
  destruct (assert NDEBUG _); try reflexivity.
  cbn [mbind outcome_mbind outcome_bind].
  rewrite length_fmap.
  case_bool_decide as Hfull; [|done].
  rewrite fmap_last.
  destruct (last keys) as [back|] eqn:Hback; [done|].
  apply last_None in Hback. rewrite Hback in Hfull. simpl in Hfull. lia.
Qed.

Lemma assert_then_Ret {A} NDEBUG c (x y : A) :
  (_ ← assert NDEBUG c; Ret x) = Ret y -> x = y /\ (NDEBUG = true \/ c = true).
Proof. destruct NDEBUG, c; simpl; intros [= <-]; auto. Qed.

Lemma assert_passes {A} NDEBUG c (x : A) :
  NDEBUG = true \/ c = true -> (_ ← assert NDEBUG c; Ret x) = Ret x.
Proof. intros [-> | ->]; [done|by destruct NDEBUG]. Qed.

(** X15.  Following the cursor loses nothing and repeats nothing: when a
    page of [n] comes with a cursor and the page of [m] after that cursor
    is fetched, the two together are the page of [n + m] from the start:
    its objects are those of the first page followed by those of the
    second, and its cursor is that of the second. *)
Theorem fetchLedgerPage_follow_cursor (NDEBUG : bool) (cursor : option uint256)
    (ledgerSequence : uint32) (n m : nat) (first second : LedgerPage) (next : uint256) :
  cache_hits_nonempty rp ledgerSequence ->
  batch_agrees rp ledgerSequence ->
  (1 <= n)%nat -> (1 <= m)%nat ->
  fetchLedgerPage rp NDEBUG cursor ledgerSequence n = Ret first ->
  page_cursor first = Some next ->
  fetchLedgerPage rp NDEBUG (Some next) ledgerSequence m = Ret second ->
  fetchLedgerPage rp NDEBUG cursor ledgerSequence (n + m)
  = Ret (mkLedgerPage (page_objects first ++ page_objects second) (page_cursor second)).
Proof.
  intros Hhit Hbatch Hn Hm H1 Hnext H2.
  rewrite fetchLedgerPage_explicit in H1, H2 |- * by (done || lia).
  simpl in H1, H2 |- *.
  set (keys1 := successors rp ledgerSequence n (default firstKey cursor)) in *.
  set (keys2 := successors rp ledgerSequence m next) in *.
  apply assert_then_Ret in H1 as [<- Hok1]. apply assert_then_Ret in H2 as [<- Hok2].
  simpl in Hnext |- *.
  pose proof (successors_length ledgerSequence n (default firstKey cursor)) as Hlen1.
  pose proof (successors_length ledgerSequence m next) as Hlen2.
  fold keys1 in Hlen1. fold keys2 in Hlen2.
  case_bool_decide as Hfull1; [|done].
  assert (Hlen : length keys1 = n) by lia.
  rewrite (successors_add ledgerSequence n m _ Hlen). fold keys1.
  rewrite Hnext. simpl. fold keys2.
  rewrite !fmap_app, forallb_app, assert_passes.
  - rewrite length_app, Hlen. do 2 f_equal.
    case_bool_decide as Hfull2.
    + rewrite bool_decide_eq_true_2 by lia.
      rewrite last_app. destruct (last keys2) as [back|] eqn:Hback; [done|].
      apply last_None in Hback. rewrite Hback in Hfull2. simpl in Hfull2. lia.
    + by rewrite bool_decide_eq_false_2 by lia.
  - destruct Hok1 as [-> | ->]; [by left|].
    destruct Hok2 as [-> | ->]; [by left|by right].
Qed.

(** X16.  The successor object of a key is the page of one after it:
    when [fetchSuccessorObject] finds nothing the page is empty and
    without cursor; when it finds an object (a non-empty one, or under
    [NDEBUG]) the page holds that object alone, with its key as cursor. *)
Theorem fetchSuccessorObject_is_page_of_one (NDEBUG : bool) (key : uint256)
    (ledgerSequence : uint32) :
  cache_hits_nonempty rp ledgerSequence ->
  batch_agrees rp ledgerSequence ->
  (fetchSuccessorObject rp NDEBUG key ledgerSequence = Ret None ->
   fetchLedgerPage rp NDEBUG (Some key) ledgerSequence 1 = Ret (mkLedgerPage [] None)) /\
  (forall object,
     fetchSuccessorObject rp NDEBUG key ledgerSequence = Ret (Some object) ->
     NDEBUG = true \/ lo_blob object <> [] ->
     fetchLedgerPage rp NDEBUG (Some key) ledgerSequence 1
     = Ret (mkLedgerPage [object] (Some (lo_key object)))).
Proof.
  intros Hhit Hbatch.
  rewrite fetchLedgerPage_explicit by (done || lia).
  unfold fetchSuccessorObject. simpl.
  destruct (fetchSuccessorKey rp key ledgerSequence) as [succ|]; simpl.
  - split.
    + destruct (fetchLedgerObject rp succ ledgerSequence); by destruct NDEBUG.
    + intros object Hobj Hne. unfold object_at.
      destruct (fetchLedgerObject rp succ ledgerSequence) as [blob|] eqn:Hblob;
        [|by destruct NDEBUG].
      assert (object = mkLedgerObject succ blob) as ->.
      { destruct NDEBUG; simpl in Hobj; congruence. }
      simpl in *. apply assert_passes.
      destruct Hne as [-> | Hne]; [by left|right]. by destruct blob.
  - split; [by destruct NDEBUG|]. intros object Hobj. discriminate.
Qed.

Lemma zip_with_nonempty keys objects :
  forallb (fun object => negb (blob_empty object)) objects = true ->
  Forall (fun object => lo_blob object <> []) (zip_with mkLedgerObject keys objects).
Proof.
  revert objects. induction keys as [|key keys IH]; intros [|object objects];
    simpl; try constructor.
  - apply andb_true_iff in H as [H _]. by destruct object.
  - apply andb_true_iff in H as [_ H]. by apply IH.
Qed.

(** X17.  Whatever the cache and the store do, a page that
    [fetchLedgerPage] returns with the assertions compiled in was asked
    with a limit of at least one, holds at most [limit] objects, none of
    them empty, and lacks a cursor exactly when it holds fewer than
    [limit]. *)
Theorem fetchLedgerPage_returns_live_objects (cursor : option uint256)
    (ledgerSequence : uint32) (limit : nat) (page : LedgerPage) :
  fetchLedgerPage rp false cursor ledgerSequence limit = Ret page ->
  (1 <= limit)%nat /\
  (length (page_objects page) <= limit)%nat /\
  Forall (fun object => lo_blob object <> []) (page_objects page) /\
  (page_cursor page = None <-> (length (page_objects page) < limit)%nat).
Proof.
  unfold fetchLedgerPage.
  destruct (collectKeys_spec rp limit cursor ledgerSequence limit [])
    as (_ & Hle & _); [by intros [|?] ? | simpl; lia | simpl; lia |].
  set (keys := collectKeys rp limit cursor ledgerSequence limit []) in *.
  destruct (fetchLedgerObjects rp keys ledgerSequence) as [objects| | |] eqn:Hobjs;
    try done.
  apply fetchLedgerObjects_length in Hobjs as Hlen.
  cbn [mbind outcome_mbind outcome_bind].
  rewrite pushObjects_spec by (by rewrite drop_0).
  rewrite drop_0. cbn [app].
  destruct (forallb _ objects) eqn:Hlive; simpl; [|done].
  pose proof (zip_with_nonempty keys objects Hlive) as Hall.
  assert (Hzl : length (zip_with mkLedgerObject keys objects) = length keys).
  { rewrite length_zip_with. lia. }
  rewrite Hzl.
  case_bool_decide as Hfull.
  - destruct (last (zip_with mkLedgerObject keys objects)) as [back|] eqn:Hback; [|done].
    intros [= <-]. simpl. rewrite Hzl.
    assert (keys <> []).
    { intros Hk. rewrite Hk in Hback. done. }
    assert (0 < length keys)%nat by (destruct keys; simpl; [done|lia]).
    repeat split; try done; try lia.
  - intros [= <-]. simpl. rewrite Hzl. repeat split; try done; lia.
Qed.

End PagesMore.

Lemma fetchLedgerPage_follow_cursor_witness :
  let rp := read_path [(2, ab)] [(1, ab); (2, ab); (3, ab); (4, ab)] in
  fetchLedgerPage rp false None 10 (2 + 1)
  = Ret (mkLedgerPage [mkLedgerObject 1 ab; mkLedgerObject 2 ab; mkLedgerObject 3 ab]
                      (Some 3)).
Proof.
  intros rp.
  apply (fetchLedgerPage_follow_cursor rp false None 10 2 1
           (mkLedgerPage [mkLedgerObject 1 ab; mkLedgerObject 2 ab] (Some 2))
           (mkLedgerPage [mkLedgerObject 3 ab] (Some 3)) 2);
    try reflexivity; try lia.
  - apply read_path_cache_hits_nonempty. repeat constructor. discriminate.
  - apply read_path_batch_agrees.
Defined.

Lemma fetchSuccessorObject_is_page_of_one_witness :
  let rp := read_path [] [(1, ab); (2, ab)] in
  fetchSuccessorObject rp false 1 10 = Ret (Some (mkLedgerObject 2 ab)) /\
  fetchLedgerPage rp false (Some 1) 10 1 = Ret (mkLedgerPage [mkLedgerObject 2 ab] (Some 2)) /\
  fetchLedgerPage rp false (Some 2) 10 1 = Ret (mkLedgerPage [] None).
Proof.
  intros rp.
  assert (Hhit : cache_hits_nonempty rp 10)
    by (apply read_path_cache_hits_nonempty; constructor).
  assert (Hbatch : batch_agrees rp 10) by apply read_path_batch_agrees.
  split; [reflexivity|]. split.
  - apply (proj2 (fetchSuccessorObject_is_page_of_one rp false 1 10 Hhit Hbatch)
             (mkLedgerObject 2 ab) eq_refl).
    right. discriminate.
  - apply (proj1 (fetchSuccessorObject_is_page_of_one rp false 2 10 Hhit Hbatch) eq_refl).
Defined.

Lemma fetchLedgerPage_returns_live_objects_witness :
  let rp := read_path [] [(1, ab); (2, []); (3, ab)] in
  fetchLedgerPage rp false None 10 5
  = Ret (mkLedgerPage [mkLedgerObject 1 ab; mkLedgerObject 3 ab] None) /\
  Forall (fun object => lo_blob object <> []) [mkLedgerObject 1 ab; mkLedgerObject 3 ab].
Proof.
  intros rp. split; [reflexivity|].
  apply (fetchLedgerPage_returns_live_objects rp None 10 5
           (mkLedgerPage [mkLedgerObject 1 ab; mkLedgerObject 3 ab] None) eq_refl).
Defined.

(** ** Keys as bytes, rows and getters *)

Section ResultGetters.

Lemma Z_of_byte_of_Z z : Z_of_byte (byte_of_Z z) = z mod 256.
Proof.
  unfold Z_of_byte, byte_of_Z.
  pose proof (Z.mod_pos_bound z 256 ltac:(lia)) as Hb.
  destruct (Stdlib.Strings.Byte.of_N (Z.to_N (z mod 256))) as [b|] eqn:Hof; simpl.
  - apply Stdlib.Strings.Byte.to_of_N in Hof. rewrite Hof. lia.
  - apply Stdlib.Strings.Byte.of_N_None_iff in Hof. lia.
Qed.

Lemma be_encode_length n z : length (be_encode n z) = n.
Proof. induction n as [|n IH]; simpl; [done|]. by rewrite IH. Qed.

Lemma be_decode_encode_from n z acc :
  fold_left (fun acc b => acc * 256 + Z_of_byte b) (be_encode n z) acc
  = acc * 256 ^ Z.of_nat n + z mod 256 ^ Z.of_nat n.
Proof.
  revert acc. induction n as [|n IH]; intros acc.
  - simpl. rewrite Z.mod_1_r. lia.
  - cbn [be_encode fold_left]. rewrite IH, Z_of_byte_of_Z.
    rewrite Nat2Z.inj_succ, Z.pow_succ_r by lia.
    rewrite (Z.mul_comm 256 (256 ^ Z.of_nat n)).
    rewrite (Z.rem_mul_r z (256 ^ Z.of_nat n) 256) by lia.
    lia.
Qed.

Lemma be_decode_encode n z :
  0 <= z < 256 ^ Z.of_nat n -> be_decode (be_encode n z) = z.
Proof.
  intros Hz. unfold be_decode. rewrite be_decode_encode_from.
  rewrite Z.mod_small by done. lia.
Qed.

Lemma uint256_data_decode key :
  0 <= key < 2 ^ 256 -> be_decode (uint256_data key) = key.
Proof.
  intros Hkey. apply be_decode_encode.
  change (Z.of_nat 32) with 32. change (256 ^ 32) with (2 ^ 256). exact Hkey.
Qed.

Lemma getUInt256_bytes r row data :
  row_ r = Some row ->
  row !! curGetIndex_ r = Some (CassBytes data) ->
  getUInt256 r
  = (key ← fromVoid data;
     Ret (key, mkResult (result_ r) (row_ r) (iter_ r) (S (curGetIndex_ r)))).
Proof.
  intros Hrow Hcol. unfold getUInt256, get_with, cass_row_get_column.
  rewrite Hrow, Hcol. reflexivity.
Qed.

Lemma fromVoid_32 data :
  length data = 32%nat -> fromVoid data = Ret (be_decode data).
Proof.
  intros Hlen. unfold fromVoid.
  rewrite bool_decide_eq_false_2 by (rewrite Hlen; apply Nat.lt_irrefl).
  by rewrite take_ge by (rewrite Hlen; apply Nat.le_refl).
Qed.

(** X18.  A key survives the trip through the driver: the 32 bytes that
    [bindNextBytes(uint256)] binds at the current slot are read back by
    [getUInt256] as the same key, the getter moving on to the next column.
    A column of fewer than 32 bytes is read past its end. *)
Theorem uint256_round_trip (key : uint256) :
  0 <= key < 2 ^ 256 ->
  (forall st st',
     bindNextBytes_uint256 key st = Ret st' ->
     length (uint256_data key) = 32%nat /\
     params st' !! curBindingIndex_ st = Some (Some (CassBytes (uint256_data key)))) /\
  (forall r row,
     row_ r = Some row ->
     row !! curGetIndex_ r = Some (CassBytes (uint256_data key)) ->
     getUInt256 r
     = Ret (key, mkResult (result_ r) (row_ r) (iter_ r) (S (curGetIndex_ r)))) /\
  (forall r row data,
     row_ r = Some row ->
     row !! curGetIndex_ r = Some (CassBytes data) ->
     (length data < 32)%nat ->
     getUInt256 r = Undefined).
Proof.
  intros Hkey. split; [|split].
  - intros st st' Hbind. split; [apply be_encode_length|].
    apply bind_at_Ret in Hbind as (Hlt & -> & _).
    apply list_lookup_insert_eq. exact Hlt.
  - intros r row Hrow Hcol.
    rewrite (getUInt256_bytes r row _ Hrow Hcol).
    rewrite (fromVoid_32 (uint256_data key) (be_encode_length 32 key)).
    rewrite (uint256_data_decode key Hkey). reflexivity.
  - intros r row data Hrow Hcol Hshort.
    rewrite (getUInt256_bytes r row _ Hrow Hcol). unfold fromVoid.
    rewrite bool_decide_eq_true_2 by exact Hshort. reflexivity.
Qed.

Lemma uint256_round_trip_witness :
  let key := 2 ^ 255 + 7 in
  getUInt256 (mkResult (Some [[CassInt64 3; CassBytes (uint256_data key)]])
                       (Some [CassInt64 3; CassBytes (uint256_data key)]) [] 1)
  = Ret (key,
         mkResult (Some [[CassInt64 3; CassBytes (uint256_data key)]])
                  (Some [CassInt64 3; CassBytes (uint256_data key)]) [] 2).
Proof.
  intros key.
  apply (proj1 (proj2 (uint256_round_trip key ltac:(unfold key; lia)))
           (mkResult (Some [[CassInt64 3; CassBytes (uint256_data key)]])
                     (Some [CassInt64 3; CassBytes (uint256_data key)]) [] 1)
           [CassInt64 3; CassBytes (uint256_data key)]);
    reflexivity.
Defined.

Lemma advance_S_rows n r :
  row_ (advance (S n) r) = iter_ r !! n /\
  iter_ (advance (S n) r) = drop (S n) (iter_ r) /\
  curGetIndex_ (advance (S n) r) = 0%nat /\
  result_ (advance (S n) r) = result_ r.
Proof.
  revert r. induction n as [|n IH]; intros r.
  - simpl. unfold nextRow. destruct (iter_ r) as [|row rest]; simpl; by rewrite ?drop_0.
  - change (advance (S (S n)) r) with (advance (S n) (nextRow r).2).
    destruct (IH (nextRow r).2) as (Hrow & Hiter & Hidx & Hres).
    rewrite Hrow, Hiter, Hidx, Hres. unfold nextRow.
    destruct (iter_ r) as [|row rest]; simpl; by repeat split.
Qed.

(** X19.  [nextRow] walks the rows in order: on the result of a query,
    after [n] calls the current row is row [n] of the result, the getters
    start again at column 0, [hasResult] holds exactly while [n] is a row,
    and the next call of [nextRow] returns true exactly when row [n + 1]
    exists.  Past the last row every getter throws. *)
Theorem nextRow_visits_rows_in_order (rows : list CassRow) (n : nat) :
  exists r0,
    CassandraResult_new (Some rows) = Ret r0 /\
    row_ (advance n r0) = rows !! n /\
    curGetIndex_ (advance n r0) = 0%nat /\
    hasResult (advance n r0) = bool_decide (n < length rows)%nat /\
    (nextRow (advance n r0)).1 = bool_decide (S n < length rows)%nat /\
    ((length rows <= n)%nat ->
     getBytes (advance n r0)
     = Raise (runtime_error "CassandraResult::getBytes - no result") /\
     getInt64 (advance n r0)
     = Raise (runtime_error "CassandraResult::getInt64 - no result")).
Proof.
  eexists. split; [reflexivity|].
  set (r0 := mkResult (Some rows) (head rows) (tail rows) 0).
  assert (Hrow : row_ (advance n r0) = rows !! n).
  { destruct n as [|n]; [by destruct rows|].
    destruct (advance_S_rows n r0) as (-> & _). simpl. by destruct rows. }
  assert (Hiter : iter_ (advance n r0) = drop (S n) rows).
  { destruct n as [|n]; [by destruct rows|].
    destruct (advance_S_rows n r0) as (_ & -> & _). simpl. by destruct rows. }
  split; [done|]. split.
  { destruct n as [|n]; [done|]. by destruct (advance_S_rows n r0) as (_ & _ & -> & _). }
  split.
  { unfold hasResult. rewrite Hrow. apply bool_decide_ext.
    rewrite <- lookup_lt_is_Some. done. }
  split.
  { unfold nextRow. rewrite Hiter.
    destruct (drop (S n) rows) as [|row rest] eqn:Hdrop; simpl.
    - symmetry. apply bool_decide_eq_false.
      apply (f_equal length) in Hdrop. rewrite length_drop in Hdrop. simpl in Hdrop. lia.
    - symmetry. apply bool_decide_eq_true.
      apply (f_equal length) in Hdrop. rewrite length_drop in Hdrop. simpl in Hdrop. lia. }
  intros Hge. unfold getBytes, getInt64, get_with. rewrite Hrow.
  by rewrite lookup_ge_None_2.
Qed.

End ResultGetters.

Lemma nextRow_visits_rows_in_order_witness :
  let rows := [[CassInt64 1]; [CassInt64 2]] in
  exists r0,
    CassandraResult_new (Some rows) = Ret r0 /\
    row_ (advance 1 r0) = Some [CassInt64 2] /\
    (nextRow (advance 1 r0)).1 = false /\
    getInt64 (advance 2 r0)
    = Raise (runtime_error "CassandraResult::getInt64 - no result").
Proof.
  intros rows.
  destruct (nextRow_visits_rows_in_order rows 1) as (r0 & Hnew & Hrow & _ & _ & Hnext & _).
  destruct (nextRow_visits_rows_in_order rows 2) as (r0' & Hnew' & _ & _ & _ & _ & Hpast).
  assert (r0' = r0) as -> by congruence.
  exists r0. split; [exact Hnew|]. split; [exact Hrow|]. split; [exact Hnext|].
  apply Hpast. simpl. lia.
Defined.

(** ** The synchronous readers *)

Section ReadersMore.

Lemma decisive_ok rc : rc = CASS_OK -> decisive rc = true.
Proof. by intros ->. Qed.

Lemma readResult_ok statement b pre fut post :
  pending (session_ b) = pre ++ fut :: post ->
  Forall (fun f => decisive (fut_error_code f) = false) pre ->
  fut_error_code fut = CASS_OK ->
  readResult statement b
  = Some (Ret (mkResult (Some (fut_rows fut)) (head (fut_rows fut))
                        (tail (fut_rows fut)) 0),
          set_session
            (mkCassSession post
               (executed (session_ b) ++ replicate (S (length pre)) (get statement)))
            b).
Proof.
  intros Hp Hpre Hfut.
  unfold readResult, mbind, M_mbind, M_bind, executeSyncRead.
  rewrite Hp, (executeSyncRead_loop_app _ _ _ _ _ Hpre (decisive_ok _ Hfut)).
  by rewrite Hfut.
Qed.

Lemma readResult_timeout statement b fut post :
  pending (session_ b) = fut :: post ->
  isTimeout (fut_error_code fut) = true ->
  readResult statement b
  = Some (Raise DatabaseTimeout,
          set_session (mkCassSession post (executed (session_ b) ++ [get statement])) b).
Proof.
  intros Hp Hfut.
  unfold readResult, mbind, M_mbind, M_bind, executeSyncRead.
  rewrite Hp. simpl. by rewrite Hfut.
Qed.

(** X20.  [fetchLatestLedgerSequence] returns none exactly on a result
    without rows; otherwise it returns the first column of the first row
    cut to 32 bits, always a [uint32_t] whatever bigint is stored, and it
    throws when that column is not a bigint. *)
Theorem fetchLatestLedgerSequence_first_column
    (p : CassPrepared) (b : CassandraBackend)
    (pre : list CassFuture) (fut : CassFuture) (post : list CassFuture) :
  pending (session_ b) = pre ++ fut :: post ->
  Forall (fun f => decisive (fut_error_code f) = false) pre ->
  fut_error_code fut = CASS_OK ->
  exists r b',
    fetchLatestLedgerSequence (mkPrepared (Some p)) b = Some (r, b') /\
    pending (session_ b') = post /\
    (r = Ret None <-> fut_rows fut = []) /\
    (forall v cols more,
       fut_rows fut = (CassInt64 v :: cols) :: more ->
       r = Ret (Some (v mod 2 ^ 32)) /\ 0 <= v mod 2 ^ 32 < 2 ^ 32) /\
    (forall row more,
       fut_rows fut = row :: more ->
       (forall v, row !! 0%nat <> Some (CassInt64 v)) ->
       exists what, r = Raise (runtime_error what)).
Proof.
  intros Hp Hpre Hfut.
  unfold fetchLatestLedgerSequence, mbind, M_mbind, M_bind, lift. simpl.
  rewrite (readResult_ok _ b pre fut post Hp Hpre Hfut).
  unfold hasResult, getUInt32, getInt64, get_with. simpl.
  destruct (fut_rows fut) as [|row more]; simpl.
  - eexists _, _. split; [reflexivity|]. by repeat split.
  - unfold cass_row_get_column. simpl.
    destruct (row !! 0%nat) as [[ | |v| | ]|] eqn:Hcol; simpl;
      eexists _, _; (split; [reflexivity|]); (split; [reflexivity|]);
      (split; [by split|]); split;
      try (intros v' cols more' [= -> _]; simpl in Hcol; congruence);
      try (intros row' more' [= <- _] Hno; by eexists).
    + intros v' cols more' [= -> _]. simpl in Hcol. injection Hcol as ->.
      split; [reflexivity|]. apply Z.mod_pos_bound. lia.
    + intros row' more' [= <- _] Hno. by destruct (Hno v).
Qed.

Lemma fetchLatestLedgerSequence_first_column_witness :
  let b := idle_backend [mkCassFuture CASS_OK [[CassInt64 (2 ^ 32 + 7)]]] in
  exists b',
    fetchLatestLedgerSequence no_parameter b = Some (Ret (Some 7), b').
Proof.
  intros b.
  destruct (fetchLatestLedgerSequence_first_column (mkCassPrepared "SELECT" []) b
              [] (mkCassFuture CASS_OK [[CassInt64 (2 ^ 32 + 7)]]) [])
    as (r & b' & Heq & _ & _ & Hv & _); try reflexivity.
  - constructor.
  - exists b'. unfold no_parameter. rewrite Heq.
    by destruct (Hv (2 ^ 32 + 7) [] [] eq_refl) as [-> _].
Defined.

(** X21.  [getToken] returns the token after the stored one and never
    leaves the [int64_t] range: for the largest token it returns none
    instead of overflowing; without rows it returns none.  The statement it
    executes carries the first 32 bytes of the key. *)
Theorem getToken_next_token (query : string) (key : Blob) (b : CassandraBackend)
    (pre : list CassFuture) (fut : CassFuture) (post : list CassFuture) :
  (32 <= length key)%nat ->
  pending (session_ b) = pre ++ fut :: post ->
  Forall (fun f => decisive (fut_error_code f) = false) pre ->
  fut_error_code fut = CASS_OK ->
  exists r b',
    getToken (mkPrepared (Some (mkCassPrepared query [CASS_VALUE_TYPE_BLOB]))) key b
    = Some (r, b') /\
    executed (session_ b')
    = executed (session_ b)
      ++ replicate (S (length pre))
           (Some (mkCassStatement query [CASS_VALUE_TYPE_BLOB]
                    [Some (CassBytes (take 32 key))])) /\
    (fut_rows fut = [] -> r = Ret None) /\
    (forall token cols more,
       fut_rows fut = (CassInt64 token :: cols) :: more ->
       - 2 ^ 63 <= token <= INT64_MAX ->
       (token = INT64_MAX -> r = Ret None) /\
       (token <> INT64_MAX ->
        r = Ret (Some (token + 1)) /\ - 2 ^ 63 < token + 1 <= INT64_MAX)).
Proof.
  intros Hkey Hp Hpre Hfut.
  unfold getToken, mbind, M_mbind, M_bind, lift, bindNextBytes_void.
  rewrite bool_decide_eq_false_2 by lia. simpl.
  rewrite (readResult_ok _ b pre fut post Hp Hpre Hfut).
  unfold hasResult, getInt64, get_with. simpl.
  destruct (fut_rows fut) as [|row more]; simpl.
  - eexists _, _. split; [reflexivity|]. by repeat split.
  - unfold cass_row_get_column.
    destruct (row !! 0%nat) as [[ | |v| | ]|] eqn:Hcol; simpl;
      try (eexists _, _; (split; [reflexivity|]); (split; [reflexivity|]);
           (split; [done|]);
           intros token cols more' [= -> _]; simpl in Hcol; congruence).
    case_bool_decide as Hmax;
      eexists _, _; (split; [reflexivity|]); (split; [reflexivity|]); (split; [done|]);
      intros token cols more' [= -> _] Hrange; simpl in Hcol; injection Hcol as ->.
    + split; [done|]. by intros Hne.
    + split; [by intros Heq|]. intros _. split; [done|]. unfold INT64_MAX in *. lia.
Qed.

Lemma getToken_next_token_witness :
  let b := idle_backend [mkCassFuture CASS_OK [[CassInt64 INT64_MAX]]] in
  exists b',
    getToken one_parameter (uint256_data 5) b = Some (Ret None, b').
Proof.
  intros b.
  destruct (getToken_next_token "SELECT" (uint256_data 5) b
              [] (mkCassFuture CASS_OK [[CassInt64 INT64_MAX]]) [])
    as (r & b' & Heq & _ & _ & Htok); try reflexivity.
  - constructor.
  - exists b'. unfold one_parameter. rewrite Heq.
    destruct (Htok INT64_MAX [] [] eq_refl) as [Hmax _]; [unfold INT64_MAX; lia|].
    by rewrite Hmax.
Defined.

End ReadersMore.

Section ReadersMore2.

(** X22.  [fetchTransaction] reads the columns of the first row in
    order: the bytes of columns 0 and 1 are the transaction and its
    metadata, columns 2 and 3, cut to 32 bits, the ledger sequence and the
    date.  Without rows it returns none; on a row of fewer than four
    columns it throws, and never returns a partial record.  The statement
    it executes carries the 32 bytes of the hash. *)
Theorem fetchTransaction_reads_four_columns (query : string) (hash : uint256)
    (b : CassandraBackend)
    (pre : list CassFuture) (fut : CassFuture) (post : list CassFuture) :
  pending (session_ b) = pre ++ fut :: post ->
  Forall (fun f => decisive (fut_error_code f) = false) pre ->
  fut_error_code fut = CASS_OK ->
  exists r b',
    fetchTransaction (mkPrepared (Some (mkCassPrepared query [CASS_VALUE_TYPE_BLOB]))) hash b
    = Some (r, b') /\
    executed (session_ b')
    = executed (session_ b)
      ++ replicate (S (length pre))
           (Some (mkCassStatement query [CASS_VALUE_TYPE_BLOB]
                    [Some (CassBytes (uint256_data hash))])) /\
    (fut_rows fut = [] -> r = Ret None) /\
    (forall c0 c1 s d cols more,
       fut_rows fut = (c0 :: c1 :: CassInt64 s :: CassInt64 d :: cols) :: more ->
       r = Ret (Some (mkTransactionAndMetadata (cql_bytes c0) (cql_bytes c1)
                        (s mod 2 ^ 32) (d mod 2 ^ 32)))) /\
    (forall row more,
       fut_rows fut = row :: more ->
       (length row < 4)%nat ->
       exists what, r = Raise (runtime_error what)).
Proof.
  intros Hp Hpre Hfut.
  unfold fetchTransaction, mbind, M_mbind, M_bind, lift, bindNextBytes_uint256.
  remember (uint256_data hash) as data eqn:Hdata. clear Hdata. simpl.
  rewrite (readResult_ok _ b pre fut post Hp Hpre Hfut).
  unfold hasResult. simpl.
  destruct (fut_rows fut) as [|row more]; simpl.
  - eexists _, _. split; [reflexivity|]. by repeat split.
  - eexists _, _. split; [reflexivity|]. split; [reflexivity|]. split; [done|]. split.
    + intros c0 c1 s d cols more' [= -> _]. reflexivity.
    + intros row' more' [= <- _] Hlen.
      destruct row as [|c0 [|c1 [|c2 [|c3 row]]]]; simpl in Hlen; try lia;
        try (by eexists).
      destruct c2; by eexists.
Qed.

Lemma fetchTransaction_reads_four_columns_witness :
  let b := idle_backend
             [mkCassFuture CASS_OK [[CassBytes ab; CassBytes []; CassInt64 7; CassInt64 9]]] in
  exists b',
    fetchTransaction one_parameter 5 b
    = Some (Ret (Some (mkTransactionAndMetadata ab [] 7 9)), b').
Proof.
  intros b.
  destruct (fetchTransaction_reads_four_columns "SELECT" 5 b []
              (mkCassFuture CASS_OK [[CassBytes ab; CassBytes []; CassInt64 7; CassInt64 9]])
              [])
    as (r & b' & Heq & _ & _ & Hrow & _); try reflexivity.
  - constructor.
  - exists b'. unfold one_parameter. rewrite Heq.
    by rewrite (Hrow (CassBytes ab) (CassBytes []) 7 9 [] [] eq_refl).
Defined.

(** X23.  The readers hand a timeout on: when the driver's first outcome
    is of the timeout class, [fetchLatestLedgerSequence], [getToken] and
    [fetchTransaction] each raise [DatabaseTimeout] after that one attempt,
    without a retry. *)
Theorem readers_raise_DatabaseTimeout (key : Blob) (hash : uint256)
    (b : CassandraBackend) (fut : CassFuture) (post : list CassFuture) :
  (32 <= length key)%nat ->
  pending (session_ b) = fut :: post ->
  isTimeout (fut_error_code fut) = true ->
  (exists b', fetchLatestLedgerSequence no_parameter b = Some (Raise DatabaseTimeout, b') /\
              pending (session_ b') = post) /\
  (exists b', getToken one_parameter key b = Some (Raise DatabaseTimeout, b') /\
              pending (session_ b') = post) /\
  (exists b', fetchTransaction one_parameter hash b = Some (Raise DatabaseTimeout, b') /\
              pending (session_ b') = post).
Proof.
  intros Hkey Hp Hfut. split; [|split].
  - unfold fetchLatestLedgerSequence, mbind, M_mbind, M_bind, lift. simpl.
    rewrite (readResult_timeout _ b fut post Hp Hfut). by eexists.
  - unfold getToken, mbind, M_mbind, M_bind, lift, bindNextBytes_void.
    rewrite bool_decide_eq_false_2 by lia. simpl.
    rewrite (readResult_timeout _ b fut post Hp Hfut). by eexists.
  - unfold fetchTransaction, mbind, M_mbind, M_bind, lift, bindNextBytes_uint256.
    remember (uint256_data hash) as data eqn:Hdata. clear Hdata. simpl.
    rewrite (readResult_timeout _ b fut post Hp Hfut). by eexists.
Qed.

Lemma readers_raise_DatabaseTimeout_witness :
  let b := idle_backend [mkCassFuture CASS_ERROR_SERVER_OVERLOADED [];
                         mkCassFuture CASS_OK [[CassInt64 7]]] in
  exists b',
    fetchLatestLedgerSequence no_parameter b = Some (Raise DatabaseTimeout, b') /\
    pending (session_ b') = [mkCassFuture CASS_OK [[CassInt64 7]]].
Proof.
  intros b.
  apply (proj1 (readers_raise_DatabaseTimeout (replicate 32 Byte.x00) 5 b
                  (mkCassFuture CASS_ERROR_SERVER_OVERLOADED [])
                  [mkCassFuture CASS_OK [[CassInt64 7]]]
                  ltac:(simpl; lia) eq_refl eq_refl)).
Defined.

End ReadersMore2.

(** ** Book offers *)

Section BookOffersMore.

Context (rl : Ripple) (rp : ReadPath) (NDEBUG : bool).

Lemma pushOffers_spec turns limit keys objs i offers :
  length objs = length keys ->
  (i <= length keys `min` limit)%nat ->
  (length keys `min` limit - i <= turns)%nat ->
  pushOffers NDEBUG turns limit keys objs i offers
  = (_ ← assert NDEBUG
           (forallb (fun obj => negb (blob_empty obj))
              (drop i (take (length keys `min` limit) objs)));
     Ret (offers ++ zip_with mkLedgerObject
                      (drop i (take (length keys `min` limit) keys))
                      (drop i (take (length keys `min` limit) objs)))).
Proof.
  intros Hlen. set (n := (length keys `min` limit)%nat).
  revert i offers. induction turns as [|turns IH]; intros i offers Hi Hturns.
  - assert (i = n) as -> by lia.
    rewrite !drop_ge by (rewrite length_take; lia).
    simpl. destruct NDEBUG; simpl; by rewrite app_nil_r.
  - cbn [pushOffers].
    destruct (decide (i < n)%nat) as [Hlt|Hge].
    + rewrite !bool_decide_eq_true_2 by lia. cbn [andb].
      destruct (lookup_lt_is_Some_2 objs i ltac:(lia)) as [obj Hobj].
      destruct (lookup_lt_is_Some_2 keys i ltac:(lia)) as [key Hkey].
      rewrite Hobj, Hkey.
      assert (Ho : drop i (take n objs) = obj :: drop (S i) (take n objs)).
      { apply drop_S. by rewrite lookup_take_lt. }
      assert (Hk : drop i (take n keys) = key :: drop (S i) (take n keys)).
      { apply drop_S. by rewrite lookup_take_lt. }
      rewrite Ho, Hk. cbn [forallb zip_with].
      destruct NDEBUG eqn:HN.
      * simpl. rewrite IH by lia. simpl. by rewrite <- (assoc_L (++)).
      * destruct (blob_empty obj); simpl; [done|].
        rewrite IH by lia. by rewrite <- (assoc_L (++)).
    + assert (i = n) as -> by lia.
      assert (Hcond : bool_decide (n < length keys)%nat && bool_decide (n < limit)%nat
                      = false).
      { apply andb_false_iff. unfold n.
        destruct (decide (length keys <= limit)%nat).
        - left. apply bool_decide_eq_false. lia.
        - right. apply bool_decide_eq_false. lia. }
      rewrite Hcond.
      rewrite !drop_ge by (rewrite length_take; lia).
      simpl. destruct NDEBUG; simpl; by rewrite app_nil_r.
Qed.

(** Turns beyond those the loops need change nothing. *)
Lemma collectOffers_more_turns turns extra bookEnd ledgerSequence limit dir tip keys r :
  collectOffers rl rp NDEBUG turns bookEnd ledgerSequence limit dir tip keys = Some r ->
  collectOffers rl rp NDEBUG (turns + extra) bookEnd ledgerSequence limit dir tip keys
  = Some r.
Proof.
  revert dir tip keys. induction turns as [|turns IH]; intros dir tip keys; [done|].
  cbn [collectOffers Nat.add].
  destruct dir as [dir|].
  - case_bool_decide; [|by apply IH].
    case_bool_decide; [by apply IH|].
    destruct (assert NDEBUG _); try done.
    destruct (fetchLedgerObject rp _ ledgerSequence); [by apply IH|done].
  - case_bool_decide; [|done].
    destruct (fetchSuccessorObject rp NDEBUG tip ledgerSequence) as [[found|]| | |];
      try done.
    case_bool_decide; [done|by apply IH].
Qed.

(** X24.  [fetchBookOffers] never returns more than [limit] offers, even
    though a directory page can push the collected keys beyond the limit:
    the offers are the first [limit] collected keys, in order, each with
    the object fetched for it, and with the assertions compiled in none of
    these objects is empty.  With a limit of zero it returns no offer. *)
Theorem fetchBookOffers_at_most_limit (turns : nat) (book : uint256)
    (ledgerSequence : uint32) (limit : nat) (cursor : option uint256)
    (offers : list LedgerObject) :
  fetchBookOffers rl rp NDEBUG turns book ledgerSequence limit cursor
  = Some (Ret offers) ->
  (length offers <= limit)%nat /\
  (NDEBUG = false -> Forall (fun offer => lo_blob offer <> []) offers) /\
  (exists keys objs,
     collectOffers rl rp NDEBUG turns (getQualityNext rl book) ledgerSequence limit
       None book [] = Some (Ret keys) /\
     fetchLedgerObjects rp keys ledgerSequence = Ret objs /\
     lo_key <$> offers = take limit keys /\
     lo_blob <$> offers = take limit objs) /\
  (limit = 0%nat -> offers = []).
Proof.
  unfold fetchBookOffers.
  destruct (collectOffers _ _ _ _ _ _ _ _ _ _) as [[keys| | |]|] eqn:Hkeys; try done.
  cbn [mbind outcome_mbind outcome_bind].
  destruct (fetchLedgerObjects rp keys ledgerSequence) as [objs| | |] eqn:Hobjs; try done.
  apply fetchLedgerObjects_length in Hobjs as Hlen.
  cbn [mbind outcome_mbind outcome_bind].
  rewrite pushOffers_spec by (done || lia).
  rewrite !drop_0. cbn [app].
  set (n := (length keys `min` limit)%nat).
  intros Hret. injection Hret as Hret.
  apply assert_then_Ret in Hret as [<- Hok].
  assert (Hzl : length (zip_with mkLedgerObject (take n keys) (take n objs)) = n).
  { rewrite length_zip_with, !length_take. lia. }
  assert (Htk : take n keys = take limit keys).
  { unfold n. destruct (decide (length keys <= limit)%nat).
    - rewrite Nat.min_l by done. by rewrite !take_ge by lia.
    - by rewrite Nat.min_r by lia. }
  assert (Hto : take n objs = take limit objs).
  { unfold n. destruct (decide (length keys <= limit)%nat).
    - rewrite Nat.min_l by done. by rewrite !take_ge by lia.
    - by rewrite Nat.min_r by lia. }
  split; [rewrite Hzl; lia|]. split; [|split].
  - intros HN. destruct Hok as [Hok|Hok]; [congruence|]. by apply zip_with_nonempty.
  - exists keys, objs. split; [done|]. split; [done|]. rewrite <- Htk, <- Hto. split.
    + apply zip_with_keys. by rewrite !length_take, Hlen.
    + clear -Hlen. assert (Hl : length (take n objs) = length (take n keys))
        by (by rewrite !length_take, Hlen).
      revert Hl. generalize (take n objs) as os, (take n keys) as ks.
      intros os ks. revert os. induction ks as [|k ks IH]; intros [|o os]; simpl; try done.
      intros [= Hl]. by rewrite IH.
  - intros ->. apply nil_length_inv. rewrite Hzl. unfold n. lia.
Qed.

End BookOffersMore.

(** One directory page with two offers, asked with a limit of one. *)
Lemma fetchBookOffers_at_most_limit_witness :
  fetchBookOffers one_page_books book_store false 5 10 10 1 None
  = Some (Ret [mkLedgerObject 21 ab]) /\
  (length [mkLedgerObject 21%Z ab] <= 1)%nat.
Proof.
  split; [reflexivity|].
  apply (fetchBookOffers_at_most_limit one_page_books book_store false 5 10 10 1 None
           [mkLedgerObject 21 ab] eq_refl).
Defined.
